(** * Knowledge store of the antigravity MCP server

    A shallow embedding of [src/tools/knowledge.ts] (tokenizer, relevance
    scorer, scope and tag filters, the save and search handlers) and of the
    part of [src/index.ts] that dispatches the two knowledge tools, together
    with the properties the specification states about them. *)

From stdpp Require Import base numbers option list strings gmap.
From Stdlib Require Import ZArith Lia.
From Stdlib Require QArith.

Open Scope Z_scope.

(** ** JavaScript strings

    A JavaScript string is a finite sequence of UTF-16 code units; [===] on
    strings is equality of these sequences, [length] their number and
    [substring(0, n)] the first [n] of them. *)

Abbreviation jsstring := (list N).

(** [s.includes(p)]: [p] occurs in [s] as a contiguous run of code units. *)
Fixpoint startsWith (p s : jsstring) : bool :=
  match p, s with
  | [], _ => true
  | _ :: _, [] => false
  | a :: p', b :: s' => (a =? b)%N && startsWith p' s'
  end.

Fixpoint includes (s p : jsstring) : bool :=
  startsWith p s ||
  match s with
  | [] => false
  | _ :: s' => includes s' p
  end.

(** [parts.join(sep)] *)
Fixpoint join (sep : jsstring) (parts : list jsstring) : jsstring :=
  match parts with
  | [] => []
  | [p] => p
  | p :: rest => p ++ sep ++ join sep rest
  end.

(** [s.substring(0, n)] for a non-negative integer [n]. *)
Definition substring0 (n : nat) (s : jsstring) : jsstring := take n s.

(** ** Character classes of the regular expressions in [tokenize]

    Without the [u] and [i] flags, [\w] is [[A-Za-z0-9_]] and [\s] is the
    ECMAScript WhiteSpace and LineTerminator code points. *)

Definition SPACE : N := 32.

Definition isAsciiUpper (c : N) : bool := ((65 <=? c) && (c <=? 90))%N.

Definition isWordChar (c : N) : bool :=
  (((48 <=? c) && (c <=? 57)) || ((65 <=? c) && (c <=? 90)) ||
   (c =? 95) || ((97 <=? c) && (c <=? 122)))%N.

Definition isWhiteSpace (c : N) : bool :=
  (((9 <=? c) && (c <=? 13)) || (c =? 32) || (c =? 160) || (c =? 5760) ||
   ((8192 <=? c) && (c <=? 8202)) || (c =? 8232) || (c =? 8233) ||
   (c =? 8239) || (c =? 8287) || (c =? 12288) || (c =? 65279))%N.

(** [s.replace(/[^\w\s]/g, " ")]: the regular expression works on single
    code units, so the replacement is a map. *)
Definition replaceNonWord (s : jsstring) : jsstring :=
  map (λ c, if isWordChar c || isWhiteSpace c then c else SPACE) s.

(** [s.split(/\s+/)]: the pieces between maximal runs of white space.  A
    leading or trailing run leaves an empty piece at that end, and the empty
    string splits into one empty piece.  [inRun] tells that the previous code
    unit was white space; [piece] is the piece being read. *)
Fixpoint splitRuns (inRun : bool) (piece : jsstring) (s : jsstring)
  : list jsstring :=
  match s with
  | [] => [piece]
  | c :: s' =>
      if isWhiteSpace c
      then (if inRun then splitRuns true [] s'
            else piece :: splitRuns true [] s')
      else splitRuns false (piece ++ [c]) s'
  end.

Definition splitWhiteSpace (s : jsstring) : list jsstring :=
  splitRuns false [] s.

(** ** Data model *)

Inductive Scope := ScopeGlobal | ScopeProject.

Inductive SearchScope := SearchGlobal | SearchProject | SearchAll.

#[global] Instance Scope_eq_dec : EqDecision Scope.
Proof. solve_decision. Defined.

(** [interface KnowledgeItem] *)
Record KnowledgeItem := mkItem {
  id : jsstring;
  title : jsstring;
  content : jsstring;
  tags : list jsstring;
  scope : Scope;
  projectPath : option jsstring;
  createdAt : jsstring;
  updatedAt : jsstring;
}.

(** [interface SearchResult] *)
Record SearchResult := mkResult {
  item : KnowledgeItem;
  score : Z;
}.

#[global] Instance KnowledgeItem_eq_dec : EqDecision KnowledgeItem.
Proof. solve_decision. Defined.

(** A value of type [string | undefined] is truthy when it is a non-empty
    string. *)
Definition truthy (v : option jsstring) : bool :=
  match v with
  | Some (_ :: _) => true
  | _ => false
  end.

Definition filterByScope (item : KnowledgeItem) (scope_ : SearchScope)
    (projectPath_ : option jsstring) : bool :=
  match scope_ with
  | SearchAll => true
  | SearchGlobal => bool_decide (scope item = ScopeGlobal)
  | SearchProject =>
      if negb (truthy projectPath_)
      then bool_decide (scope item = ScopeProject)
      else bool_decide (scope item = ScopeProject)
           && bool_decide (projectPath item = projectPath_)
  end.

(** ** Persisted documents

    [JSON.stringify] drops a property whose value is [undefined] and
    [JSON.parse] gives [undefined] back for a property that is missing, so a
    record on disk is a [KnowledgeItem] whose [title] and [content] may be
    missing when the caller of save passed none.  [tags], [scope] and the
    time stamps are always set by save. *)
Record ItemDoc := mkDoc {
  doc_id : jsstring;
  doc_title : option jsstring;
  doc_content : option jsstring;
  doc_tags : list jsstring;
  doc_scope : Scope;
  doc_projectPath : option jsstring;
  doc_createdAt : jsstring;
  doc_updatedAt : jsstring;
}.

(** [JSON.parse(content) as KnowledgeItem]: the unchecked cast.  The filters
    read [scope], [projectPath] and [tags] only; the scorer reads [title] and
    [content], and throws when one of them is [undefined] ([wellTyped] is
    false). *)
Definition asKnowledgeItem (d : ItemDoc) : KnowledgeItem :=
  {| id := doc_id d;
     title := default [] (doc_title d);
     content := default [] (doc_content d);
     tags := doc_tags d;
     scope := doc_scope d;
     projectPath := doc_projectPath d;
     createdAt := doc_createdAt d;
     updatedAt := doc_updatedAt d |}.

Definition wellTyped (d : ItemDoc) : bool :=
  bool_decide (is_Some (doc_title d)) && bool_decide (is_Some (doc_content d)).

(** [interface KnowledgeIndex].  [items] is a JavaScript object used as a
    map; its keys are UUIDs, which are never array indices, so the
    properties are enumerated in the order they were first set, and
    [JSON.stringify] and [JSON.parse] keep that order. *)
Record KnowledgeIndex := mkIndex {
  items : list (jsstring * ItemDoc);
  lastUpdated : jsstring;
}.

(** [obj[key] = value] *)
Fixpoint setProperty (key : jsstring) (value : ItemDoc)
    (obj : list (jsstring * ItemDoc)) : list (jsstring * ItemDoc) :=
  match obj with
  | [] => [(key, value)]
  | (k, v) :: rest =>
      if bool_decide (k = key) then (key, value) :: rest
      else (k, v) :: setProperty key value rest
  end.

(** [obj[key]] *)
Fixpoint getProperty (key : jsstring) (obj : list (jsstring * ItemDoc))
  : option ItemDoc :=
  match obj with
  | [] => None
  | (k, v) :: rest =>
      if bool_decide (k = key) then Some v else getProperty key rest
  end.

(** The knowledge directory: one record file per id ([<id>.json]) and the
    index file ([index.json]).  A file that is missing or does not parse is
    absent from [files], respectively [None] for the index.  Writes are
    taken to succeed. *)
Record Store := mkStore {
  files : gmap jsstring ItemDoc;
  indexFile : option KnowledgeIndex;
}.

Definition emptyStore : Store := {| files := ∅; indexFile := None |}.

(** ** Storage helpers *)

Definition loadIndex (now : jsstring) (st : Store) : KnowledgeIndex :=
  match indexFile st with
  | Some index => index
  | None => {| items := []; lastUpdated := now |}
  end.

Definition saveIndex (index : KnowledgeIndex) (st : Store) : Store :=
  {| files := files st; indexFile := Some index |}.

Definition saveKnowledgeFile (item_ : ItemDoc) (st : Store) : Store :=
  {| files := <[doc_id item_ := item_]> (files st);
     indexFile := indexFile st |}.

Definition loadKnowledgeFile (id_ : jsstring) (st : Store) : option ItemDoc :=
  files st !! id_.

(** ** Handlers

    An [async] handler either resolves with a value or rejects with the
    exception that was thrown. *)
Inductive JsError := TypeError.

Inductive Completion (A : Type) :=
  | Return (a : A)
  | Throw (e : JsError).
Arguments Return {A} a.
Arguments Throw {A} e.

(** The arguments as they reach [handleSaveKnowledge]: the dispatcher hands
    over the request's [arguments] object as it came, so any property may
    be missing. *)
Record SaveArgs := mkSaveArgs {
  arg_title : option jsstring;
  arg_content : option jsstring;
  arg_tags : option (list jsstring);
  arg_scope : option Scope;
  arg_projectPath : option jsstring;
}.

(** [handleSaveKnowledge], with the clock reading [timestamp] and the result
    [uuid] of [randomUUID()] as arguments.  It resolves with the item the
    confirmation text is printed from. *)
Definition handleSaveKnowledge (timestamp uuid : jsstring) (input : SaveArgs)
    (st : Store) : Store * Completion ItemDoc :=
  let item_ :=
    {| doc_id := uuid;
       doc_title := arg_title input;
       doc_content := arg_content input;
       doc_tags := default [] (arg_tags input);
       doc_scope := default ScopeGlobal (arg_scope input);
       doc_projectPath := arg_projectPath input;
       doc_createdAt := timestamp;
       doc_updatedAt := timestamp |} in
  (* Save the individual knowledge file *)
  let st := saveKnowledgeFile item_ st in
  (* Update the index *)
  let index := loadIndex timestamp st in
  match doc_content item_ with
  | None => (st, Throw TypeError)   (* undefined.substring *)
  | Some content_ =>
      let entry :=
        {| doc_id := doc_id item_;
           doc_title := doc_title item_;
           doc_content := Some (substring0 200 content_);
           doc_tags := doc_tags item_;
           doc_scope := doc_scope item_;
           doc_projectPath := doc_projectPath item_;
           doc_createdAt := doc_createdAt item_;
           doc_updatedAt := doc_updatedAt item_ |} in
      let index :=
        {| items := setProperty uuid entry (items index);
           lastUpdated := timestamp |} in
      let st := saveIndex index st in
      (st, Return item_)
  end.

(** The record save builds from its arguments. *)
Definition builtItem (timestamp uuid : jsstring) (input : SaveArgs) : ItemDoc :=
  {| doc_id := uuid;
     doc_title := arg_title input;
     doc_content := arg_content input;
     doc_tags := default [] (arg_tags input);
     doc_scope := default ScopeGlobal (arg_scope input);
     doc_projectPath := arg_projectPath input;
     doc_createdAt := timestamp;
     doc_updatedAt := timestamp |}.

(** [SearchKnowledgeInput], as the handler receives it: the dispatcher
    passes the arguments of the request on without applying the schema, so
    [query] can be absent ([None]), and [limit] is any number, not only an
    integer.  A number is a rational here: every finite double is one, and
    [slice] treats the infinite ones, which a JSON number too large for a
    double is read as, like any integer beyond the length of the array. *)
Record SearchKnowledgeInput := mkSearchInput {
  in_query : option jsstring;
  in_tags : option (list jsstring);
  in_scope : option SearchScope;
  in_limit : option QArith_base.Q;
}.

(** [input.limit ?? 10]. *)
Definition limitOrDefault (input : SearchKnowledgeInput) : QArith_base.Q :=
  default (QArith_base.inject_Z 10) (in_limit input).

(** The comparator of [results.sort]. *)
Definition compareFn (a b : SearchResult) : Z := score b - score a.

(** [Array.prototype.sort] is stable: [sortResults] is the one ordering of
    the elements that the comparator accepts and that keeps elements that
    compare equal in their order. *)
Fixpoint insertResult (r : SearchResult) (sorted : list SearchResult)
  : list SearchResult :=
  match sorted with
  | [] => [r]
  | r' :: rest =>
      if compareFn r r' <=? 0 then r :: r' :: rest
      else r' :: insertResult r rest
  end.

Definition sortResults (results : list SearchResult) : list SearchResult :=
  foldr insertResult [] results.

(** [ToIntegerOrInfinity] of a finite number: the fraction is cut off,
    toward zero. *)
Definition toIntegerOrInfinity (number : QArith_base.Q) : Z :=
  Z.quot (QArith_base.Qnum number) (Z.pos (QArith_base.Qden number)).

(** [arr.slice(0, end)] once [end] is made an integer [relativeEnd]: a
    negative one counts from the end of the array. *)
Definition slice0 {A} (relativeEnd : Z) (arr : list A) : list A :=
  let len := Z.of_nat (length arr) in
  let final :=
    if relativeEnd <? 0 then Z.max (len + relativeEnd) 0
    else Z.min relativeEnd len in
  take (Z.to_nat final) arr.

(** [arr.slice(0, end)] for a number [end]. *)
Definition slice {A} (end_ : QArith_base.Q) (arr : list A) : list A :=
  slice0 (toIntegerOrInfinity end_) arr.

(** ** Dispatch ([index.ts])

    [toolHandlers] maps the tool name to its handler wrapped by
    [wrapHandler]; the request handler calls it on the arguments as they
    came and turns an exception into a reply with [isError] set.  A call
    carries what the handler reads from its environment: the clock, and for
    a save the fresh UUID. *)
Inductive ToolCall :=
  | save_knowledge (timestamp uuid : jsstring) (args : SaveArgs)
  | search_knowledge (now : jsstring) (input : SearchKnowledgeInput).

Inductive ToolReply :=
  | SaveReply (saved : ItemDoc)
  | SearchReply (limitedResults : list SearchResult)
  | ErrorReply (e : JsError).

Definition isError (r : ToolReply) : bool :=
  match r with
  | ErrorReply _ => true
  | _ => false
  end.

(** ** Lower-casing of ASCII text

    What [toLowerCase] does on a string of ASCII code units.  It stands in
    for the parameter [toLowerCase] of the development where a property is
    evaluated on concrete ASCII text. *)
Definition asciiLower (s : jsstring) : jsstring :=
  map (λ c, if isAsciiUpper c then (c + 32)%N else c) s.

(** The code units of an ASCII string literal. *)
Definition js (s : string) : jsstring :=
  map (λ a, N.of_nat (Ascii.nat_of_ascii a)) (String.list_ascii_of_string s).

(** * The other tools

    [task_boundary], [notify_user], [get_agent_state] and
    [reset_agent_state] keep their state in JSON files under
    [~/.antigravity]. *)

(** ** Tool arguments

    [task_boundary] and [notify_user] take the request's arguments as a
    [Record<string, unknown>] and test them at run time.  A [JsValue] is one
    such property: a JSON value, or [JUndefined] for a property that is
    missing.  A JSON number is the rational it denotes. *)
#[warnings="-register-all"]
Inductive JsValue :=
  | JUndefined
  | JNull
  | JBool (b : bool)
  | JNumber (q : QArith_base.Q)
  | JString (s : jsstring)
  | JArray (elements : list JsValue)
  | JObject.

(** [!v] is [negb (jsTruthy v)]. *)
Definition jsTruthy (v : JsValue) : bool :=
  match v with
  | JUndefined | JNull => false
  | JBool b => b
  | JNumber q => negb (QArith_base.Qeq_bool q (QArith_base.inject_Z 0))
  | JString s => negb (bool_decide (s = []))
  | JArray _ | JObject => true
  end.

(** [typeof v === "string"], and the string a value is when it is one. *)
Definition isString (v : JsValue) : bool :=
  match v with
  | JString _ => true
  | _ => false
  end.

Definition asString (v : JsValue) : jsstring :=
  match v with
  | JString s => s
  | _ => []
  end.

(** [typeof v === "boolean"], [typeof v === "number"], [Array.isArray(v)],
    [v !== undefined] *)
Definition isBoolean (v : JsValue) : bool :=
  match v with
  | JBool _ => true
  | _ => false
  end.

Definition isNumber (v : JsValue) : bool :=
  match v with
  | JNumber _ => true
  | _ => false
  end.

Definition isArray (v : JsValue) : bool :=
  match v with
  | JArray _ => true
  | _ => false
  end.

Definition isDefined (v : JsValue) : bool :=
  match v with
  | JUndefined => false
  | _ => true
  end.

(** [list.includes(v)] for a list of strings: strict equality, so only a
    string is found. *)
Definition includesValue (list_ : list jsstring) (v : JsValue) : bool :=
  match v with
  | JString s => bool_decide (s ∈ list_)
  | _ => false
  end.

(** ** The files under [~/.antigravity] *)

(** [interface ModeChange], [TaskState], [AntiGravityState]
    ([task_boundary]).  [taskSummary] and [predictedTaskSize] are stored as
    they came. *)
Record ModeChange := mkModeChange {
  change_from : option jsstring;
  change_to : jsstring;
  change_timestamp : jsstring;
}.

Record TaskState := mkTaskState {
  task_taskName : jsstring;
  task_mode : jsstring;
  task_taskStatus : jsstring;
  task_taskSummary : JsValue;
  task_predictedTaskSize : JsValue;
  task_createdAt : jsstring;
  task_updatedAt : jsstring;
  task_modeHistory : list ModeChange;
}.

Record AntiGravityState := mkAntiGravityState {
  state_currentTask : option TaskState;
  state_lastUpdated : jsstring;
}.

(** [interface NotificationRecord] ([notify_user]); the history file holds
    the list [notifications]. *)
Record NotificationRecord := mkNotification {
  note_timestamp : jsstring;
  note_message : jsstring;
  note_pathsToReview : option (list jsstring);
  note_blockedOnUser : option bool;
  note_confidenceScore : option QArith_base.Q;
  note_confidenceJustification : option jsstring;
  note_shouldAutoProceed : option bool;
}.

(** [interface RecentArtifact], [PendingReview], [SessionStatistics]
    ([get_agent_state]). *)
Record RecentArtifact := mkRecentArtifact {
  recent_type : jsstring;
  recent_path : jsstring;
  recent_updatedAt : jsstring;
}.

Record PendingReview := mkPendingReview {
  review_path : jsstring;
  review_requestedAt : jsstring;
}.

Record SessionStatistics := mkStatistics {
  toolCallsInSession : Z;
  tasksCompleted : Z;
  filesModified : Z;
  testsRun : Z;
  errorsEncountered : Z;
  sessionStartedAt : jsstring;
}.

(** The directory: [state.json], [notifications.json], [artifacts.json],
    [reviews.json], [statistics.json].  [None] is a file that is missing or
    does not parse.  Writes are taken to succeed. *)
Record AgentDir := mkAgentDir {
  stateFile : option AntiGravityState;
  notificationsFile : option (list NotificationRecord);
  artifactsFile : option (list RecentArtifact);
  reviewsFile : option (list PendingReview);
  statisticsFile : option SessionStatistics;
}.

Definition emptyDir : AgentDir :=
  {| stateFile := None; notificationsFile := None; artifactsFile := None;
     reviewsFile := None; statisticsFile := None |}.

(** ** [task_boundary] *)

Definition loadState (now : jsstring) (dir : AgentDir) : AntiGravityState :=
  match stateFile dir with
  | Some state => state
  | None => {| state_currentTask := None; state_lastUpdated := now |}
  end.

Definition saveState (state : AntiGravityState) (dir : AgentDir) : AgentDir :=
  {| stateFile := Some state;
     notificationsFile := notificationsFile dir;
     artifactsFile := artifactsFile dir;
     reviewsFile := reviewsFile dir;
     statisticsFile := statisticsFile dir |}.

Record TaskBoundaryArgs := mkTaskBoundaryArgs {
  TaskName : JsValue;
  Mode : JsValue;
  TaskStatus : JsValue;
  TaskSummary : JsValue;
  PredictedTaskSize : JsValue;
}.

(** The reply of a handler that validates: an error text with [isError]
    set, or the confirmation (its text is not modelled). *)
Inductive ToolText :=
  | Rejected (text : jsstring)
  | Accepted.

Definition taskModes : list jsstring :=
  [js "PLANNING"; js "EXECUTION"; js "VERIFICATION"].

(** [handleTaskBoundary], with the clock reading [timestamp] as argument. *)
Definition handleTaskBoundary (timestamp : jsstring) (args : TaskBoundaryArgs)
    (dir : AgentDir) : AgentDir * ToolText :=
  (* Validate required fields *)
  if negb (jsTruthy (TaskName args)) || negb (isString (TaskName args))
  then (dir, Rejected (js "Error: TaskName is required and must be a string"))
  else if negb (jsTruthy (Mode args))
          || negb (includesValue taskModes (Mode args))
  then (dir, Rejected (js
    "Error: Mode is required and must be PLANNING, EXECUTION, or VERIFICATION"))
  else if negb (jsTruthy (TaskStatus args)) || negb (isString (TaskStatus args))
  then (dir, Rejected (js "Error: TaskStatus is required and must be a string"))
  else
    let TaskName_ := asString (TaskName args) in
    let Mode_ := asString (Mode args) in
    let TaskStatus_ := asString (TaskStatus args) in
    let state := loadState timestamp dir in
    let previousMode := task_mode <$> state_currentTask state in
    (* Build mode history *)
    let modeHistory :=
      default [] (task_modeHistory <$> state_currentTask state) in
    (* Track mode change if different *)
    let modeHistory :=
      if negb (bool_decide (previousMode = Some Mode_))
      then modeHistory ++ [{| change_from := previousMode;
                              change_to := Mode_;
                              change_timestamp := timestamp |}]
      else modeHistory in
    (* Update current task state *)
    let taskState :=
      {| task_taskName := TaskName_;
         task_mode := Mode_;
         task_taskStatus := TaskStatus_;
         task_taskSummary := TaskSummary args;
         task_predictedTaskSize := PredictedTaskSize args;
         task_createdAt :=
           default timestamp (task_createdAt <$> state_currentTask state);
         task_updatedAt := timestamp;
         task_modeHistory := modeHistory |} in
    let newState :=
      {| state_currentTask := Some taskState;
         state_lastUpdated := timestamp |} in
    (saveState newState dir, Accepted).

(** ** [notify_user] *)

Definition loadNotificationHistory (dir : AgentDir) : list NotificationRecord :=
  default [] (notificationsFile dir).

Definition saveNotificationHistory (history : list NotificationRecord)
    (dir : AgentDir) : AgentDir :=
  {| stateFile := stateFile dir;
     notificationsFile := Some history;
     artifactsFile := artifactsFile dir;
     reviewsFile := reviewsFile dir;
     statisticsFile := statisticsFile dir |}.

Record NotifyArgs := mkNotifyArgs {
  Message : JsValue;
  PathsToReview : JsValue;
  BlockedOnUser : JsValue;
  ConfidenceScore : JsValue;
  ConfidenceJustification : JsValue;
  ShouldAutoProceed : JsValue;
}.

(** The values behind the casts, once the checks have passed. *)
Definition asArray (v : JsValue) : option (list JsValue) :=
  match v with
  | JArray elements => Some elements
  | _ => None
  end.

Definition asBoolean (v : JsValue) : option bool :=
  match v with
  | JBool b => Some b
  | _ => None
  end.

Definition asNumber (v : JsValue) : option QArith_base.Q :=
  match v with
  | JNumber q => Some q
  | _ => None
  end.

Definition asOptionalString (v : JsValue) : option jsstring :=
  match v with
  | JString s => Some s
  | _ => None
  end.

(** [ConfidenceScore < 0 || ConfidenceScore > 1] *)
Definition outsideUnitInterval (v : JsValue) : bool :=
  match v with
  | JNumber q =>
      negb (QArith_base.Qle_bool (QArith_base.inject_Z 0) q)
      || negb (QArith_base.Qle_bool q (QArith_base.inject_Z 1))
  | _ => false
  end.

(** [handleNotifyUser], with the clock reading [timestamp] as argument. *)
Definition handleNotifyUser (timestamp : jsstring) (args : NotifyArgs)
    (dir : AgentDir) : AgentDir * ToolText :=
  (* Validate required fields *)
  if negb (jsTruthy (Message args)) || negb (isString (Message args))
  then (dir, Rejected (js "Error: Message is required and must be a string"))
  (* Validate PathsToReview if provided *)
  else if isDefined (PathsToReview args) && negb (isArray (PathsToReview args))
  then (dir, Rejected (js "Error: PathsToReview must be an array of strings"))
  else if isDefined (PathsToReview args)
          && negb (forallb isString
                     (default [] (asArray (PathsToReview args))))
  then (dir, Rejected (js "Error: PathsToReview must contain only strings"))
  (* Validate BlockedOnUser if provided *)
  else if isDefined (BlockedOnUser args)
          && negb (isBoolean (BlockedOnUser args))
  then (dir, Rejected (js "Error: BlockedOnUser must be a boolean"))
  (* Validate ConfidenceScore if provided *)
  else if isDefined (ConfidenceScore args)
          && negb (isNumber (ConfidenceScore args))
  then (dir, Rejected (js "Error: ConfidenceScore must be a number"))
  else if isDefined (ConfidenceScore args)
          && outsideUnitInterval (ConfidenceScore args)
  then (dir, Rejected (js "Error: ConfidenceScore must be between 0.0 and 1.0"))
  (* Validate ConfidenceJustification if provided *)
  else if isDefined (ConfidenceJustification args)
          && negb (isString (ConfidenceJustification args))
  then (dir, Rejected (js "Error: ConfidenceJustification must be a string"))
  (* Validate ShouldAutoProceed if provided *)
  else if isDefined (ShouldAutoProceed args)
          && negb (isBoolean (ShouldAutoProceed args))
  then (dir, Rejected (js "Error: ShouldAutoProceed must be a boolean"))
  else
    (* Create notification record *)
    let record :=
      {| note_timestamp := timestamp;
         note_message := asString (Message args);
         note_pathsToReview := map asString <$> asArray (PathsToReview args);
         note_blockedOnUser := asBoolean (BlockedOnUser args);
         note_confidenceScore := asNumber (ConfidenceScore args);
         note_confidenceJustification :=
           asOptionalString (ConfidenceJustification args);
         note_shouldAutoProceed := asBoolean (ShouldAutoProceed args) |} in
    (* Save to notification history *)
    let history := loadNotificationHistory dir in
    let history := history ++ [record] in
    (saveNotificationHistory history dir, Accepted).

(** ** [get_agent_state] and [reset_agent_state] *)

Inductive AgentMode := PLANNING | EXECUTION | VERIFICATION | IDLE.

(** [interface CurrentTask], [ModeHistoryEntry], [AgentState].  The [mode]
    of a history entry is the string [entry.to], cast. *)
Record CurrentTask := mkCurrentTask {
  current_name : jsstring;
  current_status : jsstring;
  current_summary : JsValue;
  current_startedAt : jsstring;
}.

Record ModeHistoryEntry := mkModeHistoryEntry {
  entry_mode : jsstring;
  entry_timestamp : jsstring;
  entry_taskName : jsstring;
}.

Record AgentState := mkAgentState {
  currentMode : AgentMode;
  currentTask : option CurrentTask;
  recentArtifacts : list RecentArtifact;
  modeHistory : list ModeHistoryEntry;
  pendingReviews : list PendingReview;
  statistics : SessionStatistics;
  agent_projectPath : option jsstring;
  agent_lastUpdated : jsstring;
}.

Definition MAX_MODE_HISTORY : nat := 10.
Definition MAX_RECENT_ARTIFACTS : nat := 20.

(** [arr.slice(-n)]: the last [n] elements. *)
Definition sliceLast {A} (n : nat) (arr : list A) : list A :=
  drop (length arr - n) arr.

Definition createDefaultStatistics (now : jsstring) : SessionStatistics :=
  {| toolCallsInSession := 0;
     tasksCompleted := 0;
     filesModified := 0;
     testsRun := 0;
     errorsEncountered := 0;
     sessionStartedAt := now |}.

Definition loadTaskBoundaryState (dir : AgentDir) : option AntiGravityState :=
  stateFile dir.

Definition loadArtifacts (dir : AgentDir) : list RecentArtifact :=
  take MAX_RECENT_ARTIFACTS (default [] (artifactsFile dir)).

Definition loadPendingReviews (dir : AgentDir) : list PendingReview :=
  default [] (reviewsFile dir).

Definition loadStatistics (now : jsstring) (dir : AgentDir)
  : SessionStatistics :=
  default (createDefaultStatistics now) (statisticsFile dir).

Definition extractModeHistory (taskState : option AntiGravityState)
  : list ModeHistoryEntry :=
  match taskState with
  | Some {| state_currentTask := Some task |} =>
      sliceLast MAX_MODE_HISTORY
        (map (λ entry,
                {| entry_mode := change_to entry;
                   entry_timestamp := change_timestamp entry;
                   entry_taskName := task_taskName task |})
             (filter (λ entry, change_to entry ≠ [])
                     (task_modeHistory task)))
  | _ => []
  end.

Definition determineCurrentMode (taskState : option AntiGravityState)
  : AgentMode :=
  match taskState with
  | Some {| state_currentTask := Some task |} =>
      let mode := task_mode task in
      if bool_decide (mode = js "PLANNING") then PLANNING
      else if bool_decide (mode = js "EXECUTION") then EXECUTION
      else if bool_decide (mode = js "VERIFICATION") then VERIFICATION
      else IDLE
  | _ => IDLE
  end.

Definition extractCurrentTask (taskState : option AntiGravityState)
  : option CurrentTask :=
  match taskState with
  | Some {| state_currentTask := Some task |} =>
      Some {| current_name := task_taskName task;
              current_status := task_taskStatus task;
              current_summary := task_taskSummary task;
              current_startedAt := task_createdAt task |}
  | _ => None
  end.

(** [handleGetAgentState]: the [state] of its response (the response is
    printed from it); [now] is the clock. *)
Definition handleGetAgentState (now : jsstring) (projectPath_ : option jsstring)
    (dir : AgentDir) : AgentState :=
  let taskState := loadTaskBoundaryState dir in
  let artifacts := loadArtifacts dir in
  let pendingReviews_ := loadPendingReviews dir in
  let statistics_ := loadStatistics now dir in
  {| currentMode := determineCurrentMode taskState;
     currentTask := extractCurrentTask taskState;
     recentArtifacts := artifacts;
     modeHistory := extractModeHistory taskState;
     pendingReviews := pendingReviews_;
     statistics := statistics_;
     agent_projectPath := projectPath_;
     agent_lastUpdated := default now (state_lastUpdated <$> taskState) |}.

(** [handleResetAgentState]: the four files it writes.  [timestamp] is the
    clock at its start, [now] the clock when the default statistics are
    made. *)
Definition handleResetAgentState (timestamp now : jsstring)
    (preserveStatistics : option bool) (dir : AgentDir) : AgentDir :=
  let preserveStats := default false preserveStatistics in
  (* Load existing statistics if preserving *)
  let statistics_ :=
    if preserveStats
    then
      let loaded := loadStatistics now dir in
      (* Update session start time even when preserving *)
      {| toolCallsInSession := toolCallsInSession loaded;
         tasksCompleted := tasksCompleted loaded;
         filesModified := filesModified loaded;
         testsRun := testsRun loaded;
         errorsEncountered := errorsEncountered loaded;
         sessionStartedAt := timestamp |}
    else createDefaultStatistics now in
  {| (* Reset main state file *)
     stateFile := Some {| state_currentTask := None;
                          state_lastUpdated := timestamp |};
     notificationsFile := notificationsFile dir;
     (* Reset artifacts *)
     artifactsFile := Some [];
     (* Reset pending reviews *)
     reviewsFile := Some [];
     (* Write statistics (reset or preserved) *)
     statisticsFile := Some statistics_ |}.

(** * Artifacts ([artifacts.ts])

    The artifacts of a project live in one directory per project,
    [~/.gemini/antigravity/brain/<project hash>]: a file [<type>.md] per
    artifact and the manifest [artifacts.json]. *)

Inductive ArtifactType :=
  | ArtifactPlan          (* "implementation_plan" *)
  | ArtifactTask          (* "task" *)
  | ArtifactWalkthrough   (* "walkthrough" *)
  | ArtifactOther.        (* "other" *)

#[global] Instance ArtifactType_eq_dec : EqDecision ArtifactType.
Proof. solve_decision. Defined.

#[global] Instance ArtifactType_countable : Countable ArtifactType.
Proof.
  refine (inj_countable'
    (λ t, match t with
          | ArtifactPlan => 0%nat | ArtifactTask => 1%nat
          | ArtifactWalkthrough => 2%nat | ArtifactOther => 3%nat
          end)
    (λ n, match n with
          | 0%nat => ArtifactPlan | 1%nat => ArtifactTask
          | 2%nat => ArtifactWalkthrough | _ => ArtifactOther
          end) _).
  by intros [].
Defined.

Record ArtifactVersion := mkVersion {
  version_timestamp : jsstring;
  version_hash : jsstring;
}.

(** [interface ArtifactMetadata], [ArtifactsManifest] *)
Record ArtifactMetadata := mkMetadata {
  meta_type : ArtifactType;
  meta_summary : option jsstring;
  meta_complexity : option QArith_base.Q;
  meta_isArtifact : bool;
  meta_createdAt : jsstring;
  meta_updatedAt : jsstring;
  meta_versions : list ArtifactVersion;
}.

Record ArtifactsManifest := mkManifest {
  manifest_projectPath : jsstring;
  manifest_projectHash : jsstring;
  manifest_artifacts : gmap ArtifactType ArtifactMetadata;
}.

(** One brain directory: the manifest ([None] when the file is missing or
    does not parse) and the artifact files. *)
Record BrainDir := mkBrainDir {
  manifestFile : option ArtifactsManifest;
  artifactFiles : gmap ArtifactType jsstring;
}.

Definition emptyBrain : BrainDir :=
  {| manifestFile := None; artifactFiles := ∅ |}.

(** What the handlers take from their environment: the SHA-256 digest in
    hexadecimal, and the working directory of the process. *)
Record ArtifactEnv := mkArtifactEnv {
  sha256Hex : jsstring → jsstring;
  cwd : jsstring;
}.

Definition getProjectHash (env : ArtifactEnv) (projectPath_ : jsstring)
  : jsstring :=
  take 12 (sha256Hex env projectPath_).

Definition getContentHash (env : ArtifactEnv) (content_ : jsstring)
  : jsstring :=
  take 8 (sha256Hex env content_).

(** The brain directories, by project hash ([getBrainDir]). *)
Definition brainOf (brainDir : jsstring) (store : gmap jsstring BrainDir)
  : BrainDir :=
  default emptyBrain (store !! brainDir).

Definition loadManifest (env : ArtifactEnv) (brain : BrainDir)
    (projectPath_ : jsstring) : ArtifactsManifest :=
  match manifestFile brain with
  | Some manifest => manifest
  | None => {| manifest_projectPath := projectPath_;
               manifest_projectHash := getProjectHash env projectPath_;
               manifest_artifacts := ∅ |}
  end.

(** [text.split("\n")] *)
Fixpoint splitOn (sep : N) (piece : jsstring) (text : jsstring)
  : list jsstring :=
  match text with
  | [] => [piece]
  | c :: text' =>
      if (c =? sep)%N then piece :: splitOn sep [] text'
      else splitOn sep (piece ++ [c]) text'
  end.

Definition NEWLINE : N := 10.

Definition splitLines (text : jsstring) : list jsstring :=
  splitOn NEWLINE [] text.

(** The decimal digits of a natural number, as a template literal prints
    it. *)
Fixpoint digitCodes (d : Decimal.uint) : jsstring :=
  match d with
  | Decimal.Nil => []
  | Decimal.D0 d' => 48%N :: digitCodes d'
  | Decimal.D1 d' => 49%N :: digitCodes d'
  | Decimal.D2 d' => 50%N :: digitCodes d'
  | Decimal.D3 d' => 51%N :: digitCodes d'
  | Decimal.D4 d' => 52%N :: digitCodes d'
  | Decimal.D5 d' => 53%N :: digitCodes d'
  | Decimal.D6 d' => 54%N :: digitCodes d'
  | Decimal.D7 d' => 55%N :: digitCodes d'
  | Decimal.D8 d' => 56%N :: digitCodes d'
  | Decimal.D9 d' => 57%N :: digitCodes d'
  end.

Definition decimal (n : nat) : jsstring := digitCodes (Nat.to_uint n).

Definition computeDiffSummary (oldContent newContent : jsstring) : jsstring :=
  let oldLines := splitLines oldContent in
  let newLines := splitLines newContent in
  let added := length (filter (λ line, line ∉ oldLines) newLines) in
  let removed := length (filter (λ line, line ∉ newLines) oldLines) in
  let parts := [] in
  let parts :=
    if (0 <? added)%nat then parts ++ [js "+" ++ decimal added ++ js " lines"]
    else parts in
  let parts :=
    if (0 <? removed)%nat
    then parts ++ [js "-" ++ decimal removed ++ js " lines"]
    else parts in
  if (length parts =? 0)%nat then js "No changes detected"
  else join (js ", ") parts.

Record CreateArtifactArgs := mkCreateArgs {
  create_type : ArtifactType;
  create_content : jsstring;
  create_summary : option jsstring;
  create_complexity : option QArith_base.Q;
  create_isArtifact : option bool;
  create_overwrite : option bool;
  create_projectPath : option jsstring;
}.

Record UpdateArtifactArgs := mkUpdateArgs {
  update_type : ArtifactType;
  update_content : jsstring;
  update_projectPath : option jsstring;
}.

(** What a handler answers; the texts are printed from these. *)
Inductive ArtifactReply :=
  | AlreadyExists
  | Created
  | Overwrote
  | DoesNotExist
  | NoChanges
  | Updated (version : nat) (changes : jsstring).

(** [args.projectPath || process.cwd()] *)
Definition projectPathOr (env : ArtifactEnv) (projectPath_ : option jsstring)
  : jsstring :=
  if truthy projectPath_ then default [] projectPath_ else cwd env.

(** [handleCreateArtifact], with the clock reading [now] as argument. *)
Definition handleCreateArtifact (env : ArtifactEnv) (now : jsstring)
    (args : CreateArtifactArgs) (store : gmap jsstring BrainDir)
  : gmap jsstring BrainDir * ArtifactReply :=
  let projectPath_ := projectPathOr env (create_projectPath args) in
  let brainDir := getProjectHash env projectPath_ in
  let brain := brainOf brainDir store in
  let manifest := loadManifest env brain projectPath_ in
  let contentHash := getContentHash env (create_content args) in
  (* Check if artifact already exists *)
  let existingArtifact := manifest_artifacts manifest !! create_type args in
  if bool_decide (is_Some existingArtifact)
     && negb (default false (create_overwrite args))
  then (store, AlreadyExists)
  else
    (* Write artifact content *)
    let files := <[create_type args := create_content args]>
                   (artifactFiles brain) in
    (* Update manifest *)
    let metadata :=
      {| meta_type := create_type args;
         meta_summary := create_summary args;
         meta_complexity := create_complexity args;
         meta_isArtifact := default true (create_isArtifact args);
         meta_createdAt := default now (meta_createdAt <$> existingArtifact);
         meta_updatedAt := now;
         meta_versions :=
           default [] (meta_versions <$> existingArtifact)
           ++ [{| version_timestamp := now; version_hash := contentHash |}] |}
    in
    let manifest :=
      {| manifest_projectPath := manifest_projectPath manifest;
         manifest_projectHash := manifest_projectHash manifest;
         manifest_artifacts :=
           <[create_type args := metadata]> (manifest_artifacts manifest) |} in
    (<[brainDir := {| manifestFile := Some manifest;
                      artifactFiles := files |}]> store,
     if default false (create_overwrite args)
        && bool_decide (is_Some existingArtifact)
     then Overwrote else Created).

(** [handleUpdateArtifact], with the clock reading [now] as argument. *)
Definition handleUpdateArtifact (env : ArtifactEnv) (now : jsstring)
    (args : UpdateArtifactArgs) (store : gmap jsstring BrainDir)
  : gmap jsstring BrainDir * ArtifactReply :=
  let projectPath_ := projectPathOr env (update_projectPath args) in
  let brainDir := getProjectHash env projectPath_ in
  let brain := brainOf brainDir store in
  let manifest := loadManifest env brain projectPath_ in
  (* Check if artifact exists *)
  match manifest_artifacts manifest !! update_type args with
  | None => (store, DoesNotExist)
  | Some existingArtifact =>
      (* Read old content for diff *)
      let oldContent := default [] (artifactFiles brain !! update_type args) in
      let contentHash := getContentHash env (update_content args) in
      (* Check if content is the same *)
      let lastVersion := last (meta_versions existingArtifact) in
      if bool_decide (version_hash <$> lastVersion = Some contentHash)
      then (store, NoChanges)
      else
        (* Write new content *)
        let files := <[update_type args := update_content args]>
                       (artifactFiles brain) in
        (* Update manifest with version history *)
        let versions :=
          meta_versions existingArtifact
          ++ [{| version_timestamp := now; version_hash := contentHash |}] in
        let metadata :=
          {| meta_type := meta_type existingArtifact;
             meta_summary := meta_summary existingArtifact;
             meta_complexity := meta_complexity existingArtifact;
             meta_isArtifact := meta_isArtifact existingArtifact;
             meta_createdAt := meta_createdAt existingArtifact;
             meta_updatedAt := now;
             meta_versions := versions |} in
        let manifest :=
          {| manifest_projectPath := manifest_projectPath manifest;
             manifest_projectHash := manifest_projectHash manifest;
             manifest_artifacts :=
               <[update_type args := metadata]>
                 (manifest_artifacts manifest) |} in
        let diffSummary :=
          computeDiffSummary oldContent (update_content args) in
        (<[brainDir := {| manifestFile := Some manifest;
                          artifactFiles := files |}]> store,
         Updated (length versions) diffSummary)
  end.

(** The metadata and the file of an artifact in a brain directory. *)
Definition metadataOf (store : gmap jsstring BrainDir) (brainDir : jsstring)
    (t : ArtifactType) : option ArtifactMetadata :=
  manifestFile (brainOf brainDir store)
    ≫= λ manifest, manifest_artifacts manifest !! t.

Definition fileOf (store : gmap jsstring BrainDir) (brainDir : jsstring)
    (t : ArtifactType) : option jsstring :=
  artifactFiles (brainOf brainDir store) !! t.

(** Every artifact of a manifest has its file, and the hash of its last
    version is the hash of what the file holds. *)
Definition brainConsistent (env : ArtifactEnv)
    (store : gmap jsstring BrainDir) : Prop :=
  ∀ brainDir t metadata,
    metadataOf store brainDir t = Some metadata →
    ∃ content_ version,
      fileOf store brainDir t = Some content_
      ∧ last (meta_versions metadata) = Some version
      ∧ version_hash version = getContentHash env content_.

(** ** Notions used to state the properties of these tools *)

(** The arguments [handleTaskBoundary] accepts. *)
Definition validTaskArgs (args : TaskBoundaryArgs) : Prop :=
  (∃ name, TaskName args = JString name ∧ name ≠ [])
  ∧ (∃ mode, Mode args = JString mode ∧ mode ∈ taskModes)
  ∧ (∃ status, TaskStatus args = JString status ∧ status ≠ []).

(** A mode history is linked from [prev]: each change starts from the mode
    the change before it led to (the first from [prev]), and leads to
    another mode. *)
Fixpoint linkedFrom (prev : option jsstring) (history : list ModeChange)
  : Prop :=
  match history with
  | [] => True
  | change :: history' =>
      change_from change = prev
      ∧ prev ≠ Some (change_to change)
      ∧ linkedFrom (Some (change_to change)) history'
  end.

(** The mode a history that starts at [prev] ends in. *)
Definition modeAfter (prev : option jsstring) (history : list ModeChange)
  : option jsstring :=
  match last history with
  | Some change => Some (change_to change)
  | None => prev
  end.

(** The current task's history starts from no mode, is linked, and ends in
    the task's mode. *)
Definition taskLinked (task : TaskState) : Prop :=
  linkedFrom None (task_modeHistory task)
  ∧ modeAfter None (task_modeHistory task) = Some (task_mode task).

Definition stateLinked (dir : AgentDir) : Prop :=
  ∀ state task,
    stateFile dir = Some state → state_currentTask state = Some task →
    taskLinked task.

(** The string of an [AgentMode]. *)
Definition modeName (mode : AgentMode) : jsstring :=
  match mode with
  | PLANNING => js "PLANNING"
  | EXECUTION => js "EXECUTION"
  | VERIFICATION => js "VERIFICATION"
  | IDLE => js "IDLE"
  end.

(** The arguments [handleNotifyUser] accepts. *)
Definition optionalArg (P : JsValue → Prop) (v : JsValue) : Prop :=
  v = JUndefined ∨ P v.

Definition inUnitInterval (q : QArith_base.Q) : Prop :=
  QArith_base.Qle (QArith_base.inject_Z 0) q
  ∧ QArith_base.Qle q (QArith_base.inject_Z 1).

Definition validNotifyArgs (args : NotifyArgs) : Prop :=
  (∃ message, Message args = JString message ∧ message ≠ [])
  ∧ optionalArg (λ v, ∃ paths, v = JArray paths
                   ∧ Forall (λ p, ∃ s, p = JString s) paths)
      (PathsToReview args)
  ∧ optionalArg (λ v, ∃ b, v = JBool b) (BlockedOnUser args)
  ∧ optionalArg (λ v, ∃ q, v = JNumber q ∧ inUnitInterval q)
      (ConfidenceScore args)
  ∧ optionalArg (λ v, ∃ s, v = JString s) (ConfidenceJustification args)
  ∧ optionalArg (λ v, ∃ b, v = JBool b) (ShouldAutoProceed args).


(** ** Example data

    Two saves into the empty store, the first with the arguments of the
    round trip the specification describes. *)
Definition exampleNow : jsstring := js "2026-01-01T00:00:00.000Z".

Definition namingArgs : SaveArgs :=
  {| arg_title := Some (js "Naming Conventions");
     arg_content := Some (js "Use camelCase for variables");
     arg_tags := Some [js "style"];
     arg_scope := Some ScopeGlobal;
     arg_projectPath := None |}.

Definition buildArgs : SaveArgs :=
  {| arg_title := Some (js "Build Steps");
     arg_content := Some (js "Run make when variables change");
     arg_tags := None;
     arg_scope := Some ScopeProject;
     arg_projectPath := Some (js "/repo") |}.

Definition exampleStore : Store :=
  (handleSaveKnowledge exampleNow (js "id-2") buildArgs
     (handleSaveKnowledge exampleNow (js "id-1") namingArgs emptyStore).1).1.

Definition namingItem : KnowledgeItem :=
  asKnowledgeItem (builtItem exampleNow (js "id-1") namingArgs).

Definition buildItem : KnowledgeItem :=
  asKnowledgeItem (builtItem exampleNow (js "id-2") buildArgs).

Definition abItem : KnowledgeItem :=
  {| id := js "id-3"; title := js "Letters"; content := js "a and b";
     tags := [js "a"; js "b"]; scope := ScopeGlobal; projectPath := None;
     createdAt := exampleNow; updatedAt := exampleNow |}.

(** Calls that leave out a required argument, and calls whose scope and
    path do not go together. *)
Definition noContentArgs : SaveArgs :=
  {| arg_title := Some (js "Only a title"); arg_content := None;
     arg_tags := None; arg_scope := None; arg_projectPath := None |}.

Definition noTitleArgs : SaveArgs :=
  {| arg_title := None; arg_content := Some (js "Only a content");
     arg_tags := None; arg_scope := None; arg_projectPath := None |}.

Definition globalWithPathArgs : SaveArgs :=
  {| arg_title := Some (js "Global"); arg_content := Some (js "With a path");
     arg_tags := None; arg_scope := None;
     arg_projectPath := Some (js "/repo") |}.

Definition projectWithoutPathArgs : SaveArgs :=
  {| arg_title := Some (js "Project"); arg_content := Some (js "No path");
     arg_tags := None; arg_scope := Some ScopeProject;
     arg_projectPath := None |}.

Definition exampleSearch (query : string) (limit : option Z)
  : SearchKnowledgeInput :=
  {| in_query := Some (js query); in_tags := None; in_scope := None;
     in_limit := QArith_base.inject_Z <$> limit |}.

(** Searches with the limits -1/2 and 3/2, and one without a query. *)
Definition fractionalSearch : SearchKnowledgeInput :=
  {| in_query := Some (js "variables"); in_tags := None; in_scope := None;
     in_limit := Some (QArith_base.Qmake (-1) 2) |}.

Definition oneAndAHalfSearch : SearchKnowledgeInput :=
  {| in_query := Some (js "variables"); in_tags := None; in_scope := None;
     in_limit := Some (QArith_base.Qmake 3 2) |}.

Definition noQuerySearch : SearchKnowledgeInput :=
  {| in_query := None; in_tags := None; in_scope := None; in_limit := None |}.

(** A store with the record files of [exampleStore] and no index file, and
    one with its index entries emptied of their content. *)
Definition orphanedStore : Store :=
  {| files := files exampleStore; indexFile := None |}.

Definition blankedStore : Store :=
  {| files := files exampleStore;
     indexFile := Some
       {| items := [(js "id-1", builtItem [] [] noContentArgs);
                    (js "id-2", builtItem [] [] noContentArgs)];
          lastUpdated := [] |} |}.

(** Calls of the other tools. *)
Definition planningArgs : TaskBoundaryArgs :=
  {| TaskName := JString (js "Refactor the parser");
     Mode := JString (js "PLANNING");
     TaskStatus := JString (js "Reading the code");
     TaskSummary := JUndefined;
     PredictedTaskSize := JUndefined |}.

Definition executionArgs : TaskBoundaryArgs :=
  {| TaskName := JString (js "Ship it");
     Mode := JString (js "EXECUTION");
     TaskStatus := JString (js "Editing");
     TaskSummary := JString (js "Plan agreed");
     PredictedTaskSize := JUndefined |}.

Definition planningDir : AgentDir :=
  (handleTaskBoundary exampleNow planningArgs emptyDir).1.

Definition doneArgs : NotifyArgs :=
  {| Message := JString (js "Done");
     PathsToReview := JArray [JString (js "/repo/a.ts")];
     BlockedOnUser := JBool false;
     ConfidenceScore := JNumber (QArith_base.Qmake 1 2);
     ConfidenceJustification := JUndefined;
     ShouldAutoProceed := JUndefined |}.

(** An environment for the artifact handlers, with the identity in place of
    the digest. *)
Definition exampleEnv : ArtifactEnv :=
  {| sha256Hex := λ s, s; cwd := js "/work" |}.

Definition planCreate : CreateArtifactArgs :=
  {| create_type := ArtifactPlan;
     create_content := js "step one";
     create_summary := None;
     create_complexity := None;
     create_isArtifact := None;
     create_overwrite := None;
     create_projectPath := Some (js "/repo") |}.

Definition planUpdate : UpdateArtifactArgs :=
  {| update_type := ArtifactPlan;
     update_content := js "step two";
     update_projectPath := Some (js "/repo") |}.

Definition planStore : gmap jsstring BrainDir :=
  (handleCreateArtifact exampleEnv exampleNow planCreate ∅).1.

(** ** Search helpers

    [String.prototype.toLowerCase] follows the Unicode case mappings; the
    development takes it as a parameter.  Two facts about it are used, and
    only where stated: its result holds no code unit of [A-Z], and it leaves
    a string alone that consists of ASCII code units outside [A-Z]. *)

Section Knowledge.

Variable toLowerCase : jsstring → jsstring.

Definition tokenize (text : jsstring) : list jsstring :=
  filter (λ token, (0 < length token)%nat)
         (splitWhiteSpace (replaceNonWord (toLowerCase text))).

Definition calculateRelevanceScore
    (item : KnowledgeItem) (queryTokens : list jsstring) : Z :=
  let titleTokens := tokenize (title item) in
  let contentTokens := tokenize (content item) in
  let tagTokens := map toLowerCase (tags item) in
  foldl (λ score queryToken,
    (* Title matches (highest weight) *)
    let score := foldl (λ score titleToken,
      if bool_decide (titleToken = queryToken) then score + 10
      else if includes titleToken queryToken then score + 5
      else score) score titleTokens in
    (* Tag matches (high weight) *)
    let score := foldl (λ score tagToken,
      if bool_decide (tagToken = queryToken) then score + 8
      else if includes tagToken queryToken then score + 4
      else score) score tagTokens in
    (* Content matches (lower weight) *)
    let score := foldl (λ score contentToken,
      if bool_decide (contentToken = queryToken) then score + 2
      else if includes contentToken queryToken then score + 1
      else score) score contentTokens in
    score) 0 queryTokens.

Definition filterByTags (item : KnowledgeItem)
    (tags_ : option (list jsstring)) : bool :=
  match tags_ with
  | None => true
  | Some tags_ =>
      if (length tags_ =? 0)%nat then true
      else
        let itemTagsLower := map toLowerCase (tags item) in
        existsb (λ tag, bool_decide (toLowerCase tag ∈ itemTagsLower)) tags_
  end.

(** The loop of [handleSearchKnowledge] over [Object.entries(index.items)];
    [results] is the array the matches are pushed on. *)
Fixpoint searchLoop (st : Store) (scope_ : SearchScope)
    (tags_ : option (list jsstring)) (queryTokens : list jsstring)
    (entries : list (jsstring * ItemDoc)) (results : list SearchResult)
  : Completion (list SearchResult) :=
  match entries with
  | [] => Return results
  | (id_, indexedItem) :: entries' =>
      (* Load full item for accurate scoring *)
      match loadKnowledgeFile id_ st with
      | None => searchLoop st scope_ tags_ queryTokens entries' results
      | Some doc =>
          let fullItem := asKnowledgeItem doc in
          (* Apply filters *)
          if negb (filterByScope fullItem scope_ None)
          then searchLoop st scope_ tags_ queryTokens entries' results
          else if negb (filterByTags fullItem tags_)
          then searchLoop st scope_ tags_ queryTokens entries' results
          else if negb (wellTyped doc)
          then Throw TypeError   (* tokenize(undefined) *)
          else
            (* Calculate relevance score *)
            let score_ := calculateRelevanceScore fullItem queryTokens in
            if 0 <? score_
            then searchLoop st scope_ tags_ queryTokens entries'
                   (results ++ [{| item := fullItem; score := score_ |}])
            else searchLoop st scope_ tags_ queryTokens entries' results
      end
  end.

(** [handleSearchKnowledge] up to and including the sort: the ranked
    matches. *)
Definition rankedResults (now : jsstring) (input : SearchKnowledgeInput)
    (st : Store) : Completion (list SearchResult) :=
  let index := loadIndex now st in
  match in_query input with
  | None => Throw TypeError   (* tokenize(undefined) *)
  | Some query =>
      let queryTokens := tokenize query in
      let scope_ := default SearchAll (in_scope input) in
      match searchLoop st scope_ (in_tags input) queryTokens (items index) []
      with
      | Throw e => Throw e
      | Return results => Return (sortResults results)
      end
  end.

(** [handleSearchKnowledge]; it resolves with [limitedResults], the list the
    reply text is printed from (the "No knowledge items found" reply when it
    is empty). *)
Definition handleSearchKnowledge (now : jsstring)
    (input : SearchKnowledgeInput) (st : Store)
  : Completion (list SearchResult) :=
  let limit := limitOrDefault input in
  match rankedResults now input st with
  | Throw e => Throw e
  | Return results =>
      (* Apply limit *)
      let limitedResults := slice limit results in
      Return limitedResults
  end.

Definition callTool (call : ToolCall) (st : Store) : Store * ToolReply :=
  match call with
  | save_knowledge timestamp uuid args =>
      match handleSaveKnowledge timestamp uuid args st with
      | (st', Return saved) => (st', SaveReply saved)
      | (st', Throw e) => (st', ErrorReply e)
      end
  | search_knowledge now input =>
      match handleSearchKnowledge now input st with
      | Return limitedResults => (st, SearchReply limitedResults)
      | Throw e => (st, ErrorReply e)
      end
  end.

(** ** The score in the words of the specification

    [contains s p]: [p] is a substring of [s].  [pairWeight] is what one
    (query token, field token) pair adds; [specScore] sums it over all
    pairs, field by field. *)
Definition contains (s p : jsstring) : Prop := ∃ a b, s = a ++ p ++ b.

Definition pairWeight (exact partial : Z) (fieldToken queryToken : jsstring)
  : Z :=
  if bool_decide (fieldToken = queryToken) then exact
  else if includes fieldToken queryToken then partial
  else 0.

Definition sumZ (l : list Z) : Z := foldr Z.add 0 l.

Definition fieldScore (exact partial : Z) (fieldTokens : list jsstring)
    (queryToken : jsstring) : Z :=
  sumZ (map (λ fieldToken, pairWeight exact partial fieldToken queryToken)
            fieldTokens).

Definition specScore (item : KnowledgeItem) (queryTokens : list jsstring)
  : Z :=
  sumZ (map (λ queryToken,
              fieldScore 10 5 (tokenize (title item)) queryToken
              + fieldScore 8 4 (map toLowerCase (tags item)) queryToken
              + fieldScore 2 1 (tokenize (content item)) queryToken)
            queryTokens).

(** ** Notions used to state the properties *)

(** The field tokens a query token is compared with: the tokens of the
    title, the lower-cased tags, the tokens of the content. *)
Definition allFieldTokens (item : KnowledgeItem) : list jsstring :=
  tokenize (title item) ++ map toLowerCase (tags item)
  ++ tokenize (content item).

(** [noPairMatches]: no field token of the item equals or contains a query
    token (an equal token contains it); [noPairMatchesb] tests it. *)
Definition noPairMatches (item : KnowledgeItem) (Q : list jsstring) : Prop :=
  ∀ q f, q ∈ Q → f ∈ allFieldTokens item → ¬ contains f q.

Definition noPairMatchesb (item : KnowledgeItem) (Q : list jsstring) : bool :=
  forallb (λ q, forallb (λ f, negb (includes f q)) (allFieldTokens item)) Q.

(** The ranked list is in descending order of score. *)
Definition descending (l : list SearchResult) : Prop :=
  ∀ i j a b, (i < j)%nat → l !! i = Some a → l !! j = Some b →
             score b ≤ score a.

(** [isMatch st sc tg Q r]: [r] is a stored record that passes both filters,
    with its positive score against [Q]. *)
Definition isMatch (st : Store) (scope_ : SearchScope)
    (tags_ : option (list jsstring)) (Q : list jsstring) (r : SearchResult)
  : Prop :=
  ∃ id_ doc,
    loadKnowledgeFile id_ st = Some doc
    ∧ item r = asKnowledgeItem doc
    ∧ filterByScope (item r) scope_ None = true
    ∧ filterByTags (item r) tags_ = true
    ∧ score r = calculateRelevanceScore (item r) Q
    ∧ 0 < score r.

(** Every record file carries a title and a content. *)
Definition storeTyped (st : Store) : Prop :=
  ∀ id_ doc, files st !! id_ = Some doc → wellTyped doc = true.

Definition notSpace (c : N) : Prop := isWhiteSpace c = false.

(** A token: not empty, and made of code units that are not white space. *)
Definition isToken (t : jsstring) : Prop := t ≠ [] ∧ Forall notSpace t.

(** The index entry of an id, if the index file holds one. *)
Definition indexedEntry (st : Store) (id_ : jsstring) : option ItemDoc :=
  match indexFile st with
  | Some index => getProperty id_ (items index)
  | None => None
  end.

(** [isIndexPrefix p full]: [p] is the index's view of the content [full]. *)
Definition isIndexPrefix (p full : jsstring) : Prop :=
  p `prefix_of` full
  ∧ ((length full ≤ 200)%nat → p = full)
  ∧ ((200 < length full)%nat → p = take 200 full ∧ length p = 200%nat).

(** Every index entry has its record file, and shows the record's content
    cut to 200 code units. *)
Definition indexConsistent (st : Store) : Prop :=
  ∀ id_ entry, indexedEntry st id_ = Some entry →
    ∃ record full p,
      files st !! id_ = Some record
      ∧ doc_content record = Some full
      ∧ doc_content entry = Some p
      ∧ isIndexPrefix p full.

(** The id [randomUUID()] returned is new to the index, or the call carries
    a content. *)
Definition freshOrComplete (call : ToolCall) (st : Store) : Prop :=
  match call with
  | save_knowledge _ uuid args =>
      is_Some (arg_content args) ∨ indexedEntry st uuid = None
  | search_knowledge _ _ => True
  end.

(** A run of tool calls, and the calls that pass a content when they
    save. *)
Fixpoint runCalls (calls : list ToolCall) (st : Store) : Store :=
  match calls with
  | [] => st
  | call :: calls' => runCalls calls' (callTool call st).1
  end.

Definition carriesContent (call : ToolCall) : Prop :=
  match call with
  | save_knowledge _ _ args => is_Some (arg_content args)
  | search_knowledge _ _ => True
  end.

(** An index entry whose record passes both filters and lacks its title or
    its content. *)
Definition untypedMatch (st : Store) (scope_ : SearchScope)
    (tags_ : option (list jsstring)) (entries : list (jsstring * ItemDoc))
  : Prop :=
  ∃ i entry doc,
    (i, entry) ∈ entries
    ∧ files st !! i = Some doc
    ∧ filterByScope (asKnowledgeItem doc) scope_ None = true
    ∧ filterByTags (asKnowledgeItem doc) tags_ = true
    ∧ wellTyped doc = false.

(** * Properties *)

(** ** Strings *)

Lemma startsWith_spec p s : startsWith p s = true ↔ ∃ b, s = p ++ b.
Proof.
  revert s. induction p as [|a p IH]; intros s; simpl.
  - split; [eauto | done].
  - destruct s as [|b s]; simpl.
    + split; [done | intros [? ?]; discriminate].
    + rewrite andb_true_iff, N.eqb_eq, IH. split.
      * intros [-> [r ->]]. eauto.
      * intros [r Hr]. injection Hr as -> ->. eauto.
Qed.

Lemma includes_spec s p : includes s p = true ↔ contains s p.
Proof.
  unfold contains. induction s as [|c s IH]; simpl.
  - rewrite orb_false_r, startsWith_spec. split.
    + intros [b Hb]. exists [], b. done.
    + intros (a & b & Hab). destruct a; [|discriminate]. eauto.
  - rewrite orb_true_iff, startsWith_spec, IH. split.
    + intros [[b Hb] | (a & b & Hab)].
      * exists [], b. done.
      * exists (c :: a), b. by rewrite Hab.
    + intros (a & b & Hab). destruct a as [|c' a].
      * left. eauto.
      * right. injection Hab as -> ->. eauto.
Qed.

Lemma contains_refl s : contains s s.
Proof. exists [], []. by rewrite app_nil_r. Qed.

(** ** Relevance score *)

Lemma pairWeight_cases e p f q :
  (f = q ∧ pairWeight e p f q = e)
  ∨ (f ≠ q ∧ contains f q ∧ pairWeight e p f q = p)
  ∨ (¬ contains f q ∧ pairWeight e p f q = 0).
Proof.
  unfold pairWeight. case_bool_decide as Heq.
  - by left.
  - destruct (includes f q) eqn:Hinc.
    + right; left. by rewrite <- includes_spec.
    + right; right. split; [|done].
      rewrite <- includes_spec. congruence.
Qed.

Lemma pairWeight_nonneg e p f q : 0 ≤ e → 0 ≤ p → 0 ≤ pairWeight e p f q.
Proof.
  intros. unfold pairWeight.
  case_bool_decide; [done|]. by destruct (includes f q).
Qed.

Lemma sumZ_app l k : sumZ (l ++ k) = sumZ l + sumZ k.
Proof. unfold sumZ. induction l; simpl; lia. Qed.

Lemma sumZ_nonneg l : Forall (λ z, 0 ≤ z) l → 0 ≤ sumZ l.
Proof. unfold sumZ. induction 1; simpl; lia. Qed.

Lemma fieldScore_nonneg e p fs q : 0 ≤ e → 0 ≤ p → 0 ≤ fieldScore e p fs q.
Proof.
  intros. apply sumZ_nonneg, Forall_forall.
  intros z [f [-> _]]%list_elem_of_fmap. by apply pairWeight_nonneg.
Qed.

(** One inner loop of [calculateRelevanceScore] adds the field's score. *)
Lemma field_loop e p q fs acc :
  foldl (λ score fieldToken,
           if bool_decide (fieldToken = q) then score + e
           else if includes fieldToken q then score + p
           else score) acc fs
  = acc + fieldScore e p fs q.
Proof.
  unfold fieldScore, sumZ. revert acc.
  induction fs as [|f fs IH]; intros acc; simpl; [lia|].
  rewrite IH. unfold pairWeight.
  case_bool_decide; [lia|]. destruct (includes f q); lia.
Qed.

Lemma query_loop item Q acc :
  foldl (λ score queryToken,
    let score := foldl (λ score titleToken,
      if bool_decide (titleToken = queryToken) then score + 10
      else if includes titleToken queryToken then score + 5
      else score) score (tokenize (title item)) in
    let score := foldl (λ score tagToken,
      if bool_decide (tagToken = queryToken) then score + 8
      else if includes tagToken queryToken then score + 4
      else score) score (map toLowerCase (tags item)) in
    let score := foldl (λ score contentToken,
      if bool_decide (contentToken = queryToken) then score + 2
      else if includes contentToken queryToken then score + 1
      else score) score (tokenize (content item)) in
    score) acc Q
  = acc + specScore item Q.
Proof.
  unfold specScore. revert acc.
  induction Q as [|q Q IH]; intros acc; simpl; [lia|].
  rewrite IH, !field_loop. lia.
Qed.

Lemma score_specScore item Q : calculateRelevanceScore item Q = specScore item Q.
Proof. unfold calculateRelevanceScore. by rewrite query_loop. Qed.

Lemma specScore_nonneg item Q : 0 ≤ specScore item Q.
Proof.
  apply sumZ_nonneg, Forall_forall.
  intros z [q [-> _]]%list_elem_of_fmap.
  pose proof (fieldScore_nonneg 10 5 (tokenize (title item)) q).
  pose proof (fieldScore_nonneg 8 4 (map toLowerCase (tags item)) q).
  pose proof (fieldScore_nonneg 2 1 (tokenize (content item)) q).
  lia.
Qed.

Lemma specScore_app item Q Q' :
  specScore item (Q ++ Q') = specScore item Q + specScore item Q'.
Proof. unfold specScore. by rewrite map_app, sumZ_app. Qed.

(** C1. The relevance score of an item against a list of query tokens is
    the sum, over all pairs of a query token and a field token, of the
    pair's weight: 10 for a title token equal to the query token and 5 for
    one that contains it without being equal, 8 and 4 for a tag (lower-cased
    as a whole, not tokenized), 2 and 1 for a content token; and the score
    is a non-negative integer. *)
Theorem score_is_sum_of_pair_weights (item : KnowledgeItem)
    (queryTokens : list jsstring) :
  calculateRelevanceScore item queryTokens
  = sumZ (map (λ queryToken,
        fieldScore 10 5 (tokenize (title item)) queryToken
        + fieldScore 8 4 (map toLowerCase (tags item)) queryToken
        + fieldScore 2 1 (tokenize (content item)) queryToken) queryTokens)
  ∧ 0 ≤ calculateRelevanceScore item queryTokens
  ∧ (∀ exact partial fieldTokens queryToken,
       fieldScore exact partial fieldTokens queryToken
       = sumZ (map (λ fieldToken,
                 pairWeight exact partial fieldToken queryToken) fieldTokens))
  ∧ (∀ exact partial fieldToken queryToken,
       (fieldToken = queryToken
        ∧ pairWeight exact partial fieldToken queryToken = exact)
       ∨ (fieldToken ≠ queryToken ∧ contains fieldToken queryToken
          ∧ pairWeight exact partial fieldToken queryToken = partial)
       ∨ (¬ contains fieldToken queryToken
          ∧ pairWeight exact partial fieldToken queryToken = 0)).
Proof.
  split; [apply score_specScore|].
  split; [rewrite score_specScore; apply specScore_nonneg|].
  split; [done|]. intros. apply pairWeight_cases.
Qed.

Lemma fieldScore_elem e p fs f q :
  0 ≤ e → 0 ≤ p → f ∈ fs → pairWeight e p f q ≤ fieldScore e p fs q.
Proof.
  intros He Hp. unfold fieldScore, sumZ.
  induction fs as [|g fs IH]; simpl; [by intros ?%elem_of_nil|].
  intros [-> | Hin]%elem_of_cons.
  - pose proof (fieldScore_nonneg e p fs q He Hp) as H.
    unfold fieldScore, sumZ in H. lia.
  - pose proof (pairWeight_nonneg e p g q He Hp). specialize (IH Hin). lia.
Qed.

Lemma pairWeight_exact e p f : pairWeight e p f f = e.
Proof. unfold pairWeight. by rewrite bool_decide_eq_true_2. Qed.

(** C9. Appending to the query a token that equals a token of the item's
    title strictly increases the item's score. *)
Theorem score_grows_with_title_token (item : KnowledgeItem)
    (Q : list jsstring) (t : jsstring) :
  t ∈ tokenize (title item) →
  calculateRelevanceScore item Q < calculateRelevanceScore item (Q ++ [t]).
Proof.
  intros Ht. rewrite !score_specScore, specScore_app.
  assert (10 ≤ specScore item [t]); [|lia].
  unfold specScore, sumZ; simpl.
  pose proof (fieldScore_elem 10 5 _ t t ltac:(lia) ltac:(lia) Ht) as H1.
  rewrite pairWeight_exact in H1.
  pose proof (fieldScore_nonneg 8 4 (map toLowerCase (tags item)) t).
  pose proof (fieldScore_nonneg 2 1 (tokenize (content item)) t).
  lia.
Qed.

Lemma fieldScore_no_match e p fs q :
  (∀ f, f ∈ fs → ¬ contains f q) → fieldScore e p fs q = 0.
Proof.
  unfold fieldScore, sumZ. induction fs as [|f fs IH]; simpl; [done|].
  intros H. rewrite IH by (intros; apply H; by right).
  destruct (pairWeight_cases e p f q) as [[-> _] | [(_ & Hc & _) | [_ ->]]].
  - destruct (H q); [by left | apply contains_refl].
  - destruct (H f); [by left | done].
  - done.
Qed.

Lemma score_no_match item Q :
  noPairMatches item Q → calculateRelevanceScore item Q = 0.
Proof.
  intros H. rewrite score_specScore. unfold specScore, sumZ.
  induction Q as [|q Q IH]; simpl; [done|].
  rewrite IH by (intros q' f Hq; apply H; by right).
  rewrite !fieldScore_no_match; [done|..];
    intros f Hf; apply (H q f); [by left | | by left | | by left |];
    unfold allFieldTokens; rewrite !elem_of_app; auto.
Qed.

Lemma fieldScore_zero e p fs q :
  0 < e → 0 < p → fieldScore e p fs q = 0 → ∀ f, f ∈ fs → ¬ contains f q.
Proof.
  intros He Hp. unfold fieldScore, sumZ.
  induction fs as [|g fs IH]; simpl; [by intros _ f ?%elem_of_nil|].
  intros Hsum f Hf.
  pose proof (pairWeight_nonneg e p g q ltac:(lia) ltac:(lia)) as Hg.
  pose proof (fieldScore_nonneg e p fs q ltac:(lia) ltac:(lia)) as Hfs.
  unfold fieldScore, sumZ in Hfs.
  apply elem_of_cons in Hf as [-> | Hf]; [|apply IH; [lia|done]].
  destruct (pairWeight_cases e p g q) as [[_ H] | [(_ & _ & H) | [H _]]];
    [lia | lia | done].
Qed.

(** The score is 0 exactly when no pair matches. *)
Lemma score_zero_iff_no_match item Q :
  calculateRelevanceScore item Q = 0 ↔ noPairMatches item Q.
Proof.
  split; [|apply score_no_match].
  rewrite score_specScore. unfold specScore, sumZ, noPairMatches.
  induction Q as [|q Q IH]; simpl; [by intros _ q f ?%elem_of_nil|].
  intros Hsum q' f Hq' Hf.
  pose proof (fieldScore_nonneg 10 5 (tokenize (title item)) q
                ltac:(lia) ltac:(lia)) as H1.
  pose proof (fieldScore_nonneg 8 4 (map toLowerCase (tags item)) q
                ltac:(lia) ltac:(lia)) as H2.
  pose proof (fieldScore_nonneg 2 1 (tokenize (content item)) q
                ltac:(lia) ltac:(lia)) as H3.
  pose proof (specScore_nonneg item Q) as H4. unfold specScore, sumZ in H4.
  apply elem_of_cons in Hq' as [-> | Hq']; [|apply (IH ltac:(lia) q' f Hq' Hf)].
  unfold allFieldTokens in Hf. rewrite !elem_of_app in Hf.
  destruct Hf as [Hf | [Hf | Hf]].
  - apply (fieldScore_zero 10 5 (tokenize (title item)) q); [lia..|done].
  - apply (fieldScore_zero 8 4 (map toLowerCase (tags item)) q); [lia..|done].
  - apply (fieldScore_zero 2 1 (tokenize (content item)) q); [lia..|done].
Qed.

(** ** Ranking and truncation *)

Lemma insertResult_perm r l : insertResult r l ≡ₚ r :: l.
Proof.
  induction l as [|r' l IH]; simpl; [done|].
  destruct (compareFn r r' <=? 0); [done|].
  rewrite IH. apply perm_swap.
Qed.

Lemma sortResults_perm l : sortResults l ≡ₚ l.
Proof.
  unfold sortResults. induction l as [|r l IH]; simpl; [done|].
  by rewrite insertResult_perm, IH.
Qed.

Lemma descending_cons r l :
  descending (r :: l) ↔ (∀ b, b ∈ l → score b ≤ score r) ∧ descending l.
Proof.
  unfold descending. split.
  - intros H. split.
    + intros b [j Hj]%list_elem_of_lookup.
      apply (H 0%nat (S j) r b); [lia|done..].
    + intros i j a b Hij Ha Hb. apply (H (S i) (S j) a b); [lia|done..].
  - intros [H1 H2] i j a b Hij Ha Hb.
    destruct j as [|j]; [lia|]. simpl in Hb.
    destruct i as [|i]; simpl in Ha.
    + injection Ha as <-. apply H1. by eapply list_elem_of_lookup_2.
    + apply (H2 i j a b); [lia|done..].
Qed.

Lemma insertResult_descending r l :
  descending l → descending (insertResult r l).
Proof.
  induction l as [|r' l IH]; simpl; intros Hl.
  - apply descending_cons. split; [by intros b ?%elem_of_nil|done].
  - apply descending_cons in Hl as Hl'. destruct Hl' as [Hhd Htl].
    unfold compareFn. destruct (score r' - score r <=? 0) eqn:Hc.
    + apply Z.leb_le in Hc. apply descending_cons. split; [|done].
      intros b [-> | Hb]%elem_of_cons; [lia|].
      specialize (Hhd b Hb). lia.
    + apply Z.leb_gt in Hc. apply descending_cons. split; [|by apply IH].
      intros b Hb. rewrite insertResult_perm in Hb.
      apply elem_of_cons in Hb as [-> | Hb]; [lia | by apply Hhd].
Qed.

Lemma sortResults_descending l : descending (sortResults l).
Proof.
  unfold sortResults. induction l as [|r l IH]; simpl.
  - intros i j a b _ Ha. by rewrite lookup_nil in Ha.
  - by apply insertResult_descending.
Qed.

(** Results of equal score keep the order they were found in. *)
Lemma insertResult_filter s r l :
  filter (λ x, score x = s) (insertResult r l)
  = filter (λ x, score x = s) (r :: l).
Proof.
  induction l as [|r' l IH]; simpl; [done|].
  unfold compareFn. destruct (score r' - score r <=? 0) eqn:Hc; [done|].
  apply Z.leb_gt in Hc. rewrite filter_cons, IH, !filter_cons.
  repeat case_decide; try done; lia.
Qed.

Lemma sortResults_stable s l :
  filter (λ x, score x = s) (sortResults l) = filter (λ x, score x = s) l.
Proof.
  unfold sortResults. induction l as [|r l IH]; simpl; [done|].
  by rewrite insertResult_filter, !filter_cons, IH.
Qed.

Lemma slice0_subseteq {A} (n : Z) (l : list A) : slice0 n l ⊆ l.
Proof. apply subseteq_take. Qed.

Lemma slice0_negative {A} (n : Z) (l : list A) :
  n < 0 →
  slice0 n l = take (Z.to_nat (Z.max (Z.of_nat (length l) - Z.abs n) 0)) l.
Proof.
  intros Hn. unfold slice0.
  destruct (n <? 0) eqn:Hlt; [|apply Z.ltb_ge in Hlt; lia].
  do 2 f_equal. lia.
Qed.

(** [ToIntegerOrInfinity] keeps an integer and cuts any other number to
    the integer next to it on the side of zero. *)
Lemma toIntegerOrInfinity_inject_Z z :
  toIntegerOrInfinity (QArith_base.inject_Z z) = z.
Proof. unfold toIntegerOrInfinity. simpl. apply Z.quot_1_r. Qed.

Lemma toIntegerOrInfinity_nonneg q :
  QArith_base.Qle (QArith_base.inject_Z 0) q →
  0 ≤ toIntegerOrInfinity q
  ∧ QArith_base.Qle (QArith_base.inject_Z (toIntegerOrInfinity q)) q
  ∧ QArith_base.Qlt q (QArith_base.inject_Z (toIntegerOrInfinity q + 1)).
Proof.
  destruct q as [num den].
  unfold QArith_base.Qle, QArith_base.Qlt, toIntegerOrInfinity. simpl.
  intros Hq. rewrite Z.quot_div_nonneg by lia.
  pose proof (Z.div_mod num (Z.pos den) ltac:(lia)).
  pose proof (Z.mod_pos_bound num (Z.pos den) ltac:(lia)).
  split; [apply Z.div_pos; lia|]. nia.
Qed.

Lemma toIntegerOrInfinity_neg q :
  QArith_base.Qlt q (QArith_base.inject_Z 0) →
  toIntegerOrInfinity q ≤ 0
  ∧ QArith_base.Qle q (QArith_base.inject_Z (toIntegerOrInfinity q))
  ∧ QArith_base.Qlt (QArith_base.inject_Z (toIntegerOrInfinity q - 1)) q.
Proof.
  destruct q as [num den].
  unfold QArith_base.Qle, QArith_base.Qlt, toIntegerOrInfinity. simpl.
  intros Hq.
  replace num with (- - num) by lia.
  rewrite Z.quot_opp_l by lia. rewrite Z.quot_div_nonneg by lia.
  pose proof (Z.div_mod (- num) (Z.pos den) ltac:(lia)).
  pose proof (Z.mod_pos_bound (- num) (Z.pos den) ltac:(lia)).
  assert (0 ≤ - num / Z.pos den) by (apply Z.div_pos; lia).
  split; [lia|]. nia.
Qed.

(** ** The search loop *)

Lemma searchLoop_elem st sc tg Q entries acc rs :
  searchLoop st sc tg Q entries acc = Return rs →
  ∀ r, r ∈ rs → r ∈ acc ∨ isMatch st sc tg Q r.
Proof.
  revert acc. induction entries as [|[i e] entries IH]; intros acc; simpl.
  - intros [= <-] r Hr. by left.
  - destruct (loadKnowledgeFile i st) as [doc|] eqn:Hload; [|by apply IH].
    destruct (filterByScope (asKnowledgeItem doc) sc None) eqn:Hsc;
      simpl; [|by apply IH].
    destruct (filterByTags (asKnowledgeItem doc) tg) eqn:Htg;
      simpl; [|by apply IH].
    destruct (wellTyped doc); simpl; [|done].
    destruct (0 <? calculateRelevanceScore (asKnowledgeItem doc) Q) eqn:Hpos;
      [|by apply IH].
    intros Hrs r Hr. destruct (IH _ Hrs r Hr) as [Hacc | Hm]; [|by right].
    apply elem_of_app in Hacc as [Hacc | ->%list_elem_of_singleton];
      [by left|].
    right. exists i, doc. simpl. apply Z.ltb_lt in Hpos. done.
Qed.

Lemma searchLoop_total st sc tg Q entries acc :
  storeTyped st → ∃ rs, searchLoop st sc tg Q entries acc = Return rs.
Proof.
  intros Hst. revert acc.
  induction entries as [|[i e] entries IH]; intros acc; simpl; [eauto|].
  destruct (loadKnowledgeFile i st) as [doc|] eqn:Hload; [|by apply IH].
  destruct (filterByScope (asKnowledgeItem doc) sc None); simpl; [|by apply IH].
  destruct (filterByTags (asKnowledgeItem doc) tg); simpl; [|by apply IH].
  rewrite (Hst i doc Hload). simpl.
  destruct (0 <? calculateRelevanceScore (asKnowledgeItem doc) Q);
    by apply IH.
Qed.

(** A search that returns was given a query. *)
Lemma rankedResults_query now input st ranked :
  rankedResults now input st = Return ranked → is_Some (in_query input).
Proof. unfold rankedResults. by destruct (in_query input). Qed.

Lemma search_query now input st rs :
  handleSearchKnowledge now input st = Return rs → is_Some (in_query input).
Proof.
  unfold handleSearchKnowledge.
  destruct (rankedResults now input st) as [ranked|] eqn:Hr; [|done].
  intros _. by eapply rankedResults_query.
Qed.

Lemma rankedResults_elem now input st query ranked r :
  in_query input = Some query →
  rankedResults now input st = Return ranked → r ∈ ranked →
  isMatch st (default SearchAll (in_scope input)) (in_tags input)
          (tokenize query) r.
Proof.
  unfold rankedResults. intros ->.
  destruct (searchLoop _ _ _ _ _ _) as [rs|] eqn:Hloop; [|done].
  intros [= <-] Hr. rewrite sortResults_perm in Hr.
  destruct (searchLoop_elem _ _ _ _ _ _ _ Hloop r Hr) as [?%elem_of_nil|];
    done.
Qed.

Lemma rankedResults_total now input st :
  storeTyped st → is_Some (in_query input) →
  ∃ ranked, rankedResults now input st = Return ranked.
Proof.
  intros Hst [query Hq]. unfold rankedResults. rewrite Hq.
  destruct (searchLoop_total st (default SearchAll (in_scope input))
              (in_tags input) (tokenize query)
              (items (loadIndex now st)) [] Hst) as [rs ->].
  eauto.
Qed.

Lemma search_elem now input st query rs r :
  in_query input = Some query →
  handleSearchKnowledge now input st = Return rs → r ∈ rs →
  isMatch st (default SearchAll (in_scope input)) (in_tags input)
          (tokenize query) r.
Proof.
  unfold handleSearchKnowledge. intros Hq.
  destruct (rankedResults now input st) as [ranked|] eqn:Hr; [|done].
  intros [= <-] Hin. apply slice0_subseteq in Hin.
  by eapply rankedResults_elem.
Qed.

Lemma search_total now input st :
  storeTyped st → is_Some (in_query input) →
  ∃ rs, handleSearchKnowledge now input st = Return rs.
Proof.
  intros Hst Hq. unfold handleSearchKnowledge.
  destruct (rankedResults_total now input st Hst Hq) as [ranked ->]. eauto.
Qed.

(** ** Filters *)

Lemma filterByScope_None_scope (it : KnowledgeItem) (sc : SearchScope) :
  filterByScope it sc None = true →
  (sc = SearchGlobal → scope it = ScopeGlobal)
  ∧ (sc = SearchProject → scope it = ScopeProject).
Proof.
  destruct sc; simpl; intros H; split; intros [=];
    by apply bool_decide_eq_true in H.
Qed.

(** C5, amended.  [all] accepts every item; [global] accepts exactly the
    items of scope global; [project] without a path, or with the empty
    string as path, accepts exactly the items of scope project; [project]
    with a non-empty path accepts exactly the items of scope project whose
    [projectPath] is that very string.  A search with scope [global]
    returns no item of scope project, and a search with scope [project]
    none of scope global. *)
Theorem scope_filter_accepts :
  (∀ (it : KnowledgeItem) p, filterByScope it SearchAll p = true)
  ∧ (∀ (it : KnowledgeItem) p,
       filterByScope it SearchGlobal p = true ↔ scope it = ScopeGlobal)
  ∧ (∀ it : KnowledgeItem,
       filterByScope it SearchProject None = true ↔ scope it = ScopeProject)
  ∧ (∀ it : KnowledgeItem,
       filterByScope it SearchProject (Some []) = true
       ↔ scope it = ScopeProject)
  ∧ (∀ (it : KnowledgeItem) (p : jsstring), p ≠ [] →
       (filterByScope it SearchProject (Some p) = true
        ↔ scope it = ScopeProject ∧ projectPath it = Some p))
  ∧ (∀ now input st rs r,
       handleSearchKnowledge now input st = Return rs → r ∈ rs →
       (in_scope input = Some SearchGlobal → scope (item r) = ScopeGlobal)
       ∧ (in_scope input = Some SearchProject
          → scope (item r) = ScopeProject)).
Proof.
  split; [done|].
  split; [intros it p; simpl; by rewrite bool_decide_eq_true|].
  split; [intros it; simpl; by rewrite bool_decide_eq_true|].
  split; [intros it; simpl; by rewrite bool_decide_eq_true|].
  split.
  - intros it [|c p] Hp; [done|]. simpl.
    by rewrite andb_true_iff, !bool_decide_eq_true.
  - intros now input st rs r Hrs Hr.
    destruct (search_query _ _ _ _ Hrs) as [query Hq].
    destruct (search_elem _ _ _ _ _ _ Hq Hrs Hr) as (i & doc & _ & _ & Hf & _).
    split; intros Hsc; rewrite Hsc in Hf;
      by apply (filterByScope_None_scope _ _ Hf).
Qed.

Lemma filterByTags_spec (it : KnowledgeItem) (tg : option (list jsstring)) :
  filterByTags it tg = true
  ↔ tg = None ∨ tg = Some []
    ∨ ∃ requested, tg = Some requested
        ∧ ∃ t r, t ∈ tags it ∧ r ∈ requested
                 ∧ toLowerCase t = toLowerCase r.
Proof.
  destruct tg as [[|r0 requested]|]; [simpl; split; auto| |simpl; split; auto].
  unfold filterByTags.
  replace (length (r0 :: requested) =? 0)%nat with false by done.
  cbv zeta.
    rewrite existsb_exists. split.
    + intros (r & Hr%list_elem_of_In & Hin%bool_decide_eq_true).
      apply list_elem_of_fmap in Hin as (t & Heq & Ht).
      right; right. exists (r0 :: requested). split; [done|].
      exists t, r. done.
    + intros [[=] | [[=] | (req & [= <-] & t & r & Ht & Hr & Heq)]].
      exists r. split; [by apply list_elem_of_In|].
      apply bool_decide_eq_true. rewrite <- Heq.
      by apply list_elem_of_fmap_2.
Qed.

(** ** Search results *)

(** C7. An item for which no pair of a query token and a field token
    matches scores exactly 0 and is absent from the search results, whatever
    the limit and the scope; a query without tokens has no results.  The
    search returns on every store whose records carry title and content,
    when the call carries a query; a search that returns was given one. *)
Theorem zero_score_items_are_excluded (now : jsstring)
    (input : SearchKnowledgeInput) (st : Store) :
  (storeTyped st → is_Some (in_query input) →
   ∃ rs, handleSearchKnowledge now input st = Return rs)
  ∧ ∀ rs, handleSearchKnowledge now input st = Return rs →
      ∃ query, in_query input = Some query
      ∧ (∀ it, noPairMatches it (tokenize query) →
           calculateRelevanceScore it (tokenize query) = 0
           ∧ ∀ r, r ∈ rs → item r ≠ it)
      ∧ (tokenize query = [] → rs = []).
Proof.
  split; [apply search_total|]. intros rs Hrs.
  destruct (search_query _ _ _ _ Hrs) as [query Hq].
  exists query. split; [done|].
  assert (∀ it, noPairMatches it (tokenize query) →
            ∀ r, r ∈ rs → item r ≠ it) as Habsent.
  { intros it Hno r Hr Heq. subst it.
    destruct (search_elem _ _ _ _ _ _ Hq Hrs Hr)
      as (_ & _ & _ & _ & _ & _ & Hs & Hp).
    rewrite (score_no_match _ _ Hno) in Hs. lia. }
  split.
  - intros it Hno. split; [by apply score_no_match | by apply Habsent].
  - intros HQ. destruct rs as [|r rs]; [done|].
    destruct (Habsent (item r)) with (r := r); [|by left|done].
    rewrite HQ. by intros q f ?%elem_of_nil.
Qed.

(** C10. With a negative limit the search does not fail once the matches
    are ranked.  [slice] first cuts the limit to an integer, toward zero;
    with [k] the integer part of |limit| (so k <= |limit| < k + 1, and
    k = |limit| for an integer limit):
    - for a limit of -1 or below, the search returns the first
      max(n - k, 0) of the n ranked matches, which is not the empty list
      exactly when n > k: the last k matches are dropped;
    - for a limit between -1 and 0, the search returns the empty list,
      however many matches there are. *)
Theorem negative_limit_drops_last_matches (now : jsstring)
    (input : SearchKnowledgeInput) (st : Store)
    (ranked : list SearchResult) (limit : QArith_base.Q) :
  in_limit input = Some limit →
  QArith_base.Qlt limit (QArith_base.inject_Z 0) →
  rankedResults now input st = Return ranked →
  let n := Z.of_nat (length ranked) in
  let k := Z.abs (toIntegerOrInfinity limit) in
  let kept := take (Z.to_nat (Z.max (n - k) 0)) ranked in
  (QArith_base.Qlt (QArith_base.inject_Z (- k - 1)) limit
   ∧ QArith_base.Qle limit (QArith_base.inject_Z (- k)))
  ∧ (∀ z : Z, limit = QArith_base.inject_Z z → k = Z.abs z)
  ∧ (QArith_base.Qle limit (QArith_base.inject_Z (-1)) →
     handleSearchKnowledge now input st = Return kept
     ∧ Z.of_nat (length kept) = Z.max (n - k) 0
     ∧ (kept ≠ [] ↔ k < n))
  ∧ (QArith_base.Qlt (QArith_base.inject_Z (-1)) limit →
     handleSearchKnowledge now input st = Return []).
Proof.
  intros Hl Hneg Hr n k kept.
  destruct (toIntegerOrInfinity_neg limit Hneg) as (Hle & Hupper & Hlower).
  assert (toIntegerOrInfinity limit = - k) as Hk by (unfold k; lia).
  rewrite Hk in Hupper, Hlower.
  split; [done|].
  split; [intros z ->; unfold k; by rewrite toIntegerOrInfinity_inject_Z|].
  unfold handleSearchKnowledge, limitOrDefault, slice.
  rewrite Hr, Hl.
  change (default (QArith_base.inject_Z 10) (Some limit)) with limit.
  rewrite Hk.
  destruct limit as [num den].
  unfold QArith_base.Qle, QArith_base.Qlt in *. simpl in *.
  split.
  - intros Hone. assert (0 < k) as Hpos by nia.
    rewrite slice0_negative by lia.
    replace (Z.abs (- k)) with k by lia.
    assert (Z.of_nat (length kept) = Z.max (n - k) 0) as Hlen.
    { unfold kept. rewrite length_take. fold n. lia. }
    split; [done|]. split; [done|]. split.
    + intros Hne. destruct (decide (k < n)) as [|Hge]; [done|].
      destruct Hne. apply length_zero_iff_nil. lia.
    + intros Hn Hnil. rewrite Hnil in Hlen. simpl in Hlen. lia.
  - intros Hone. assert (k = 0) as -> by nia.
    unfold slice0. simpl. by rewrite Z.min_l, take_0 by lia.
Qed.

(** ** Tokenizer *)

Lemma splitRuns_Forall (P : N → Prop) s inRun piece :
  Forall P piece → Forall P s → Forall (Forall P) (splitRuns inRun piece s).
Proof.
  revert inRun piece. induction s as [|c s IH]; intros inRun piece Hp Hs; simpl.
  - by repeat constructor.
  - apply Forall_cons in Hs as [Hc Hs].
    destruct (isWhiteSpace c).
    + destruct inRun; [by apply IH|]. constructor; [done|by apply IH].
    + apply IH; [|done]. apply Forall_app. by repeat constructor.
Qed.

Lemma splitRuns_notSpace s inRun piece :
  Forall notSpace piece → Forall (Forall notSpace) (splitRuns inRun piece s).
Proof.
  revert inRun piece. induction s as [|c s IH]; intros inRun piece Hp; simpl.
  - by repeat constructor.
  - destruct (isWhiteSpace c) eqn:Hc.
    + destruct inRun; [by apply IH|]. constructor; [done|by apply IH].
    + apply IH. apply Forall_app. by repeat constructor.
Qed.

(** Reading a run of code units that are not white space extends the
    piece. *)
Lemma splitRuns_word t piece rest :
  Forall notSpace t →
  splitRuns false piece (t ++ rest) = splitRuns false (piece ++ t) rest.
Proof.
  revert piece. induction t as [|c t IH]; intros piece Ht; simpl.
  - by rewrite app_nil_r.
  - apply Forall_cons in Ht as [Hc Ht]. unfold notSpace in Hc.
    rewrite Hc, IH by done. by rewrite <- app_assoc.
Qed.

Lemma splitRuns_after_space t rest :
  isToken t →
  splitRuns true [] (t ++ rest) = splitRuns false [] (t ++ rest).
Proof.
  intros [Hne Ht]. destruct t as [|c t]; [done|]. simpl.
  apply Forall_cons in Ht as [Hc _]. unfold notSpace in Hc. by rewrite Hc.
Qed.

Lemma join_cons_cons sep t u ts :
  join sep (t :: u :: ts) = t ++ sep ++ join sep (u :: ts).
Proof. done. Qed.

Lemma join_head sep t ts :
  ∃ rest, join sep (t :: ts) = t ++ rest.
Proof.
  destruct ts as [|u ts].
  - exists []. simpl. by rewrite app_nil_r.
  - eexists. apply join_cons_cons.
Qed.

(** Splitting the tokens joined by single spaces gives the tokens back. *)
Lemma split_join_tokens ts :
  ts ≠ [] → Forall isToken ts →
  splitWhiteSpace (join [SPACE] ts) = ts.
Proof.
  unfold splitWhiteSpace. induction ts as [|t ts IH]; [done|].
  intros _ Hts. apply Forall_cons in Hts as [Ht Hts].
  destruct ts as [|u ts].
  - simpl. rewrite <- (app_nil_r t) at 1.
    rewrite splitRuns_word by apply Ht. done.
  - rewrite join_cons_cons, splitRuns_word by apply Ht.
    change (splitRuns false ([] ++ t) ([SPACE] ++ join [SPACE] (u :: ts)))
      with (t :: splitRuns true [] (join [SPACE] (u :: ts))).
    f_equal. destruct (join_head [SPACE] u ts) as [rest Hrest].
    rewrite Hrest, splitRuns_after_space by (by apply Forall_cons in Hts as [? _]).
    rewrite <- Hrest. by apply IH.
Qed.

Lemma filter_tokens ts :
  Forall isToken ts → filter (λ token, (0 < length token)%nat) ts = ts.
Proof.
  induction 1 as [|t ts [Hne _] _ IH]; [done|].
  rewrite filter_cons_True, IH; [done|].
  destruct t; [done|simpl; lia].
Qed.

Lemma join_Forall (P : N → Prop) ts :
  P SPACE → Forall (Forall P) ts → Forall P (join [SPACE] ts).
Proof.
  intros Hsp. induction 1 as [|t ts Ht Hts IH]; [constructor|].
  destruct ts as [|u ts]; [done|].
  rewrite join_cons_cons. apply Forall_app. split; [done|].
  by constructor.
Qed.

Lemma replaceNonWord_id s :
  Forall (λ c, isWordChar c = true ∨ isWhiteSpace c = true) s →
  replaceNonWord s = s.
Proof.
  unfold replaceNonWord. induction 1 as [|c s Hc _ IH]; simpl; [done|].
  rewrite IH. by destruct Hc as [-> | ->]; rewrite ?orb_true_r.
Qed.

Lemma replaceNonWord_Forall (P : N → Prop) s :
  Forall P s →
  Forall (λ c, (isWordChar c = true ∧ P c) ∨ isWhiteSpace c = true)
         (replaceNonWord s).
Proof.
  unfold replaceNonWord. induction 1 as [|c s Hc _ IH]; simpl; [constructor|].
  constructor; [|done].
  destruct (isWordChar c) eqn:Hw; simpl; [by left|].
  destruct (isWhiteSpace c) eqn:Hs; by right.
Qed.

(** The tokens of any text are tokens, made of word characters that
    [toLowerCase] left in the text. *)
Lemma tokenize_tokens (P : N → Prop) text :
  Forall P (toLowerCase text) →
  Forall (λ t, isToken t ∧ Forall (λ c, isWordChar c = true ∧ P c) t)
         (tokenize text).
Proof.
  intros HP. unfold tokenize, splitWhiteSpace.
  apply Forall_forall. intros t [Hlen Ht]%list_elem_of_filter.
  pose proof (splitRuns_notSpace (replaceNonWord (toLowerCase text)) false []
                (Forall_nil_2 _)) as Hns.
  pose proof (splitRuns_Forall _ (replaceNonWord (toLowerCase text)) false []
                (Forall_nil_2 _) (replaceNonWord_Forall P _ HP)) as Hw.
  rewrite Forall_forall in Hns, Hw.
  specialize (Hns t Ht). specialize (Hw t Ht). simpl in Hw.
  split; [split|].
  - destruct t; [simpl in Hlen; lia|done].
  - done.
  - rewrite Forall_forall in Hns, Hw. apply Forall_forall. intros c Hc.
    destruct (Hw c Hc) as [?|Hsp]; [done|].
    specialize (Hns c Hc). unfold notSpace in Hns. congruence.
Qed.

Lemma wordChar_ascii c : isWordChar c = true → (c < 128)%N.
Proof.
  unfold isWordChar.
  rewrite !orb_true_iff, !andb_true_iff, !N.leb_le, N.eqb_eq. lia.
Qed.

(** The two properties below rest on the facts about [toLowerCase]. *)
Section CaseMapping.

Hypothesis toLowerCase_no_upper :
  ∀ s c, c ∈ toLowerCase s → isAsciiUpper c = false.

Hypothesis toLowerCase_fixes :
  ∀ s, Forall (λ c, (c < 128)%N ∧ isAsciiUpper c = false) s →
       toLowerCase s = s.

(** C8. Tokenizing the tokens of a text joined by single spaces gives the
    same tokens as tokenizing the text, where [tokenize] lower-cases,
    replaces every code unit that is neither a word character (ASCII letter,
    digit, underscore) nor white space by a space, splits at the runs of
    white space and drops the empty pieces. *)
Theorem tokenize_idempotent (x : jsstring) :
  tokenize (join [SPACE] (tokenize x)) = tokenize x.
Proof.
  assert (Forall (λ t, isToken t
             ∧ Forall (λ c, isWordChar c = true ∧ isAsciiUpper c = false) t)
            (tokenize x)) as Hts.
  { apply (tokenize_tokens (λ c, isAsciiUpper c = false)).
    apply Forall_forall, toLowerCase_no_upper. }
  set (ts := tokenize x) in *.
  assert (Forall isToken ts) as Htokens.
  { eapply Forall_impl; [exact Hts|]. by intros t [? _]. }
  assert (Forall (Forall (λ c, (isWordChar c = true ∧ isAsciiUpper c = false)
                               ∨ c = SPACE)) ts) as Hchars.
  { eapply Forall_impl; [exact Hts|]. intros t [_ Ht].
    eapply Forall_impl; [exact Ht|]. by left. }
  apply join_Forall in Hchars; [|by right].
  unfold tokenize at 1.
  rewrite toLowerCase_fixes.
  2:{ eapply Forall_impl; [exact Hchars|].
      intros c [[Hw Hu] | ->]; [|done]. split; [by apply wordChar_ascii|done]. }
  rewrite replaceNonWord_id.
  2:{ eapply Forall_impl; [exact Hchars|].
      intros c [[Hw _] | ->]; [by left | by right]. }
  destruct ts as [|t ts'] eqn:Ets; [done|].
  rewrite split_join_tokens by done. by apply filter_tokens.
Qed.

(** C6. The tag filter accepts an item exactly when the requested list is
    absent or empty, or some tag of the item equals some requested tag once
    both are lower-cased (one match suffices); an item tagged a, b passes
    the filter b, z and fails the filter z, y. *)
Theorem tag_filter_is_any_match :
  (∀ (it : KnowledgeItem) (tg : option (list jsstring)),
     filterByTags it tg = true
     ↔ tg = None ∨ tg = Some []
       ∨ ∃ requested, tg = Some requested
           ∧ ∃ t r, t ∈ tags it ∧ r ∈ requested
                    ∧ toLowerCase t = toLowerCase r)
  ∧ (∀ it : KnowledgeItem, tags it = [js "a"; js "b"] →
       filterByTags it (Some [js "b"; js "z"]) = true
       ∧ filterByTags it (Some [js "z"; js "y"]) = false).
Proof.
  split; [apply filterByTags_spec|].
  intros it Htags. unfold filterByTags. rewrite Htags. simpl.
  assert (∀ s, s ∈ [js "a"; js "b"; js "z"; js "y"] → toLowerCase s = s)
    as Hfix.
  { intros s Hs. apply toLowerCase_fixes.
    repeat (apply elem_of_cons in Hs as [-> | Hs];
            [by repeat constructor|]).
    by apply elem_of_nil in Hs. }
  rewrite !Hfix by (repeat (first [by left | right])).
  done.
Qed.

End CaseMapping.

(** ** Saving *)

Lemma getProperty_setProperty_eq k v obj :
  getProperty k (setProperty k v obj) = Some v.
Proof.
  induction obj as [|[k' v'] obj IH]; simpl.
  - by rewrite bool_decide_eq_true_2.
  - case_bool_decide as Hk; simpl.
    + by rewrite bool_decide_eq_true_2.
    + by rewrite bool_decide_eq_false_2.
Qed.

Lemma getProperty_setProperty_ne k k' v obj :
  k ≠ k' → getProperty k' (setProperty k v obj) = getProperty k' obj.
Proof.
  intros Hne. induction obj as [|[k0 v0] obj IH]; simpl.
  - by rewrite bool_decide_eq_false_2.
  - case_bool_decide as Hk; simpl.
    + subst k0. by rewrite !bool_decide_eq_false_2.
    + by rewrite IH.
Qed.

Lemma take_isIndexPrefix full : isIndexPrefix (substring0 200 full) full.
Proof.
  unfold isIndexPrefix, substring0. split; [|split].
  - exists (drop 200 full). by rewrite take_drop.
  - intros. by apply take_ge.
  - intros. split; [done|]. rewrite length_take. lia.
Qed.

Lemma isIndexPrefix_take p full : isIndexPrefix p full → p = take 200 full.
Proof.
  intros (_ & Hle & Hgt).
  destruct (decide (length full ≤ 200)%nat) as [H|H].
  - rewrite take_ge by done. auto.
  - apply Hgt. lia.
Qed.

Lemma save_with_content timestamp uuid input st c :
  arg_content input = Some c →
  handleSaveKnowledge timestamp uuid input st
  = ({| files := <[uuid := builtItem timestamp uuid input]> (files st);
        indexFile := Some
          {| items := setProperty uuid
               {| doc_id := uuid;
                  doc_title := arg_title input;
                  doc_content := Some (substring0 200 c);
                  doc_tags := default [] (arg_tags input);
                  doc_scope := default ScopeGlobal (arg_scope input);
                  doc_projectPath := arg_projectPath input;
                  doc_createdAt := timestamp;
                  doc_updatedAt := timestamp |}
               (items (loadIndex timestamp st));
             lastUpdated := timestamp |} |},
     Return (builtItem timestamp uuid input)).
Proof. intros Hc. destruct input. simpl in Hc. subst. reflexivity. Qed.

Lemma save_without_content timestamp uuid input st :
  arg_content input = None →
  handleSaveKnowledge timestamp uuid input st
  = ({| files := <[uuid := builtItem timestamp uuid input]> (files st);
        indexFile := indexFile st |},
     Throw TypeError).
Proof. intros Hc. destruct input. simpl in Hc. subst. reflexivity. Qed.

Lemma indexConsistent_empty : indexConsistent emptyStore.
Proof. intros i e. unfold indexedEntry. simpl. done. Qed.

Lemma save_preserves_indexConsistent timestamp uuid input st :
  indexConsistent st →
  is_Some (arg_content input) ∨ indexedEntry st uuid = None →
  indexConsistent (handleSaveKnowledge timestamp uuid input st).1.
Proof.
  intros Hst Hadm. destruct (arg_content input) as [c|] eqn:Hc.
  - rewrite (save_with_content _ _ _ _ c Hc). simpl.
    intros i e. unfold indexedEntry. simpl.
    destruct (decide (uuid = i)) as [<- | Hne].
    + rewrite getProperty_setProperty_eq, lookup_insert_eq.
      intros [= <-]. exists (builtItem timestamp uuid input), c, (substring0 200 c).
      split; [done|]. split; [done|]. split; [done|].
      apply take_isIndexPrefix.
    + rewrite getProperty_setProperty_ne, lookup_insert_ne by done.
      intros He. apply (Hst i e). unfold indexedEntry, loadIndex in *.
      by destruct (indexFile st).
  - destruct Hadm as [[? [=]] | Hfresh].
    rewrite (save_without_content _ _ _ _ Hc). simpl.
    intros i e He. unfold indexedEntry in He. simpl in He.
    destruct (decide (uuid = i)) as [<- | Hne].
    + unfold indexedEntry in Hfresh. congruence.
    + destruct (Hst i e He) as (record & full & p & Hf & Hrest).
      exists record, full, p. simpl. by rewrite lookup_insert_ne.
Qed.

Lemma callTool_preserves_indexConsistent call st :
  indexConsistent st → freshOrComplete call st →
  indexConsistent (callTool call st).1.
Proof.
  intros Hst Hadm. destruct call as [timestamp uuid args | now input].
  - pose proof (save_preserves_indexConsistent timestamp uuid args st Hst Hadm)
      as H.
    simpl. by destruct (handleSaveKnowledge timestamp uuid args st) as [st' []].
  - simpl. by destruct (handleSearchKnowledge now input st).
Qed.

(** Every store reached from the empty one by calls that carry a content is
    consistent, whatever ids the saves draw. *)
Lemma runCalls_indexConsistent calls st :
  indexConsistent st → Forall carriesContent calls →
  indexConsistent (runCalls calls st).
Proof.
  intros Hst Hcalls. revert st Hst.
  induction Hcalls as [|call calls Hcall _ IH]; intros st Hst; simpl; [done|].
  apply IH, callTool_preserves_indexConsistent; [done|].
  destruct call; simpl in *; auto.
Qed.

(** C2, on the code.  Save checks none of its arguments.  It writes the
    record file whatever the arguments are.  Without a content it then
    throws a [TypeError], which the dispatcher turns into an error reply,
    with the record written and the index left alone; with a content and
    without a title it succeeds, and the index gets the entry. *)
Theorem save_does_not_validate (timestamp uuid : jsstring) (args : SaveArgs)
    (st : Store) :
  let st' := (callTool (save_knowledge timestamp uuid args) st).1 in
  let reply := (callTool (save_knowledge timestamp uuid args) st).2 in
  files st' !! uuid = Some (builtItem timestamp uuid args)
  ∧ (arg_content args = None →
       reply = ErrorReply TypeError ∧ indexFile st' = indexFile st)
  ∧ (is_Some (arg_content args) →
       reply = SaveReply (builtItem timestamp uuid args)
       ∧ isError reply = false
       ∧ ∃ entry, indexedEntry st' uuid = Some entry
                  ∧ doc_title entry = arg_title args).
Proof.
  simpl. destruct (arg_content args) as [c|] eqn:Hc.
  - rewrite (save_with_content _ _ _ _ c Hc). simpl.
    split; [by rewrite lookup_insert_eq|]. split; [done|].
    intros _. repeat split. unfold indexedEntry. simpl.
    rewrite getProperty_setProperty_eq. eauto.
  - rewrite (save_without_content _ _ _ _ Hc). simpl.
    split; [by rewrite lookup_insert_eq|]. split; [done|].
    by intros [? [=]].
Qed.

(** C3, amended.  Whenever a content is passed, save succeeds, and the item
    it creates and stores carries the scope argument (global when there is
    none) and the [projectPath] argument as it came, present or not, empty
    or not, whatever the scope. *)
Theorem save_keeps_scope_and_path (timestamp uuid : jsstring)
    (title_ : option jsstring) (content_ : jsstring)
    (tags_ : option (list jsstring)) (scope_ : option Scope)
    (path_ : option jsstring) (st : Store) :
  ∃ st' saved,
    handleSaveKnowledge timestamp uuid
      {| arg_title := title_; arg_content := Some content_;
         arg_tags := tags_; arg_scope := scope_;
         arg_projectPath := path_ |} st
    = (st', Return saved)
    ∧ files st' !! uuid = Some saved
    ∧ doc_scope saved = default ScopeGlobal scope_
    ∧ doc_projectPath saved = path_.
Proof.
  eexists _, _. rewrite (save_with_content _ _ _ _ content_) by done.
  split; [done|]. simpl. by rewrite lookup_insert_eq.
Qed.

(** C4. The store with no files is consistent, and every call of a
    knowledge tool keeps the store consistent: each index entry has a
    record, and the entry's content is a prefix of the record's content,
    equal to it when that has at most 200 code units and its first 200 code
    units otherwise.  For a save the id is taken to be new to the index, or
    the call to carry a content. *)
Theorem index_content_is_prefix (call : ToolCall) (st : Store) :
  indexConsistent emptyStore
  ∧ (indexConsistent st → freshOrComplete call st →
     indexConsistent (callTool call st).1).
Proof.
  split; [apply indexConsistent_empty|].
  apply callTool_preserves_indexConsistent.
Qed.

(** ** Stores whose records carry title and content *)

Lemma noPairMatchesb_sound it Q :
  noPairMatchesb it Q = true → noPairMatches it Q.
Proof.
  unfold noPairMatchesb. rewrite forallb_forall.
  intros H q f Hq%list_elem_of_In Hf%list_elem_of_In Hc%includes_spec.
  specialize (H q Hq). rewrite forallb_forall in H.
  specialize (H f Hf). by rewrite Hc in H.
Qed.

Lemma storeTyped_empty : storeTyped emptyStore.
Proof. intros i d. simpl. by rewrite lookup_empty. Qed.

Lemma save_preserves_storeTyped timestamp uuid input st :
  storeTyped st →
  is_Some (arg_title input) → is_Some (arg_content input) →
  storeTyped (handleSaveKnowledge timestamp uuid input st).1.
Proof.
  intros Hst [t Ht] [c Hc]. rewrite (save_with_content _ _ _ _ c Hc).
  intros i d. simpl. destruct (decide (uuid = i)) as [<- | Hne].
  - rewrite lookup_insert_eq. intros [= <-].
    unfold wellTyped. simpl. rewrite Ht, Hc. done.
  - rewrite lookup_insert_ne by done. apply Hst.
Qed.

(** * Further properties of the knowledge store *)

(** ** What the search loop finds *)

Lemma searchLoop_acc st sc tg Q entries acc rs :
  searchLoop st sc tg Q entries acc = Return rs → ∃ new, rs = acc ++ new.
Proof.
  revert acc. induction entries as [|[i e] entries IH]; intros acc; simpl.
  - intros [= <-]. exists []. by rewrite app_nil_r.
  - destruct (loadKnowledgeFile i st) as [doc|]; [|by apply IH].
    destruct (filterByScope (asKnowledgeItem doc) sc None); simpl;
      [|by apply IH].
    destruct (filterByTags (asKnowledgeItem doc) tg); simpl; [|by apply IH].
    destruct (wellTyped doc); simpl; [|done].
    destruct (0 <? calculateRelevanceScore (asKnowledgeItem doc) Q);
      [|by apply IH].
    intros [new ->]%IH. eexists. by rewrite <- app_assoc.
Qed.

Lemma searchLoop_length st sc tg Q entries acc rs :
  searchLoop st sc tg Q entries acc = Return rs →
  (length rs ≤ length acc + length entries)%nat.
Proof.
  revert acc. induction entries as [|[i e] entries IH]; intros acc; simpl.
  - intros [= <-]. lia.
  - destruct (loadKnowledgeFile i st) as [doc|];
      [|intros ?%IH; lia].
    destruct (filterByScope (asKnowledgeItem doc) sc None); simpl;
      [|intros ?%IH; lia].
    destruct (filterByTags (asKnowledgeItem doc) tg); simpl;
      [|intros ?%IH; lia].
    destruct (wellTyped doc); simpl; [|done].
    destruct (0 <? calculateRelevanceScore (asKnowledgeItem doc) Q);
      intros H%IH; [|lia].
    rewrite length_app in H. simpl in H. lia.
Qed.

Lemma searchLoop_indexed st sc tg Q entries acc rs r :
  searchLoop st sc tg Q entries acc = Return rs → r ∈ rs →
  r ∈ acc
  ∨ ∃ i e doc, (i, e) ∈ entries ∧ files st !! i = Some doc
      ∧ wellTyped doc = true ∧ item r = asKnowledgeItem doc.
Proof.
  revert acc. induction entries as [|[i e] entries IH]; intros acc; simpl.
  - intros [= <-] Hr. by left.
  - assert (∀ acc', searchLoop st sc tg Q entries acc' = Return rs →
              r ∈ rs → r ∈ acc'
              ∨ ∃ i0 e0 doc, (i0, e0) ∈ (i, e) :: entries
                  ∧ files st !! i0 = Some doc ∧ wellTyped doc = true
                  ∧ item r = asKnowledgeItem doc) as IH'.
    { intros acc' H Hr. destruct (IH acc' H Hr) as [?|(i0 & e0 & d & Hin & ?)];
        [by left|]. right. exists i0, e0, d. split; [by right|done]. }
    unfold loadKnowledgeFile.
    destruct (files st !! i) as [doc|] eqn:Hload; [|by apply IH'].
    destruct (filterByScope (asKnowledgeItem doc) sc None); simpl;
      [|by apply IH'].
    destruct (filterByTags (asKnowledgeItem doc) tg); simpl; [|by apply IH'].
    destruct (wellTyped doc) eqn:Hwt; simpl; [|done].
    destruct (0 <? calculateRelevanceScore (asKnowledgeItem doc) Q);
      [|by apply IH'].
    intros Hrs Hr. destruct (IH' _ Hrs Hr) as [Hacc | ?]; [|by right].
    apply elem_of_app in Hacc as [Hacc | ->%list_elem_of_singleton];
      [by left|].
    right. exists i, e, doc. split; [by left|done].
Qed.

Lemma searchLoop_complete st sc tg Q entries acc rs i e doc :
  searchLoop st sc tg Q entries acc = Return rs →
  (i, e) ∈ entries → files st !! i = Some doc →
  filterByScope (asKnowledgeItem doc) sc None = true →
  filterByTags (asKnowledgeItem doc) tg = true →
  0 < calculateRelevanceScore (asKnowledgeItem doc) Q →
  {| item := asKnowledgeItem doc;
     score := calculateRelevanceScore (asKnowledgeItem doc) Q |} ∈ rs.
Proof.
  intros Hrs Hin Hfile Hsc Htg Hpos. revert acc Hrs.
  induction entries as [|[i0 e0] entries IH]; intros acc;
    [by apply elem_of_nil in Hin|].
  apply elem_of_cons in Hin as [[= <- <-] | Hin].
  - simpl. unfold loadKnowledgeFile. rewrite Hfile, Hsc, Htg. simpl.
    destruct (wellTyped doc); simpl; [|done].
    apply Z.ltb_lt in Hpos. rewrite Hpos.
    intros [new ->]%searchLoop_acc.
    rewrite !elem_of_app, list_elem_of_singleton. auto.
  - specialize (IH Hin). simpl.
    destruct (loadKnowledgeFile i0 st) as [doc0|]; [|by apply IH].
    destruct (filterByScope (asKnowledgeItem doc0) sc None); simpl;
      [|by apply IH].
    destruct (filterByTags (asKnowledgeItem doc0) tg); simpl; [|by apply IH].
    destruct (wellTyped doc0); simpl; [|done].
    destruct (0 <? calculateRelevanceScore (asKnowledgeItem doc0) Q);
      by apply IH.
Qed.

Lemma searchLoop_keys st1 st2 sc tg Q entries1 entries2 acc :
  files st1 = files st2 → entries1.*1 = entries2.*1 →
  searchLoop st1 sc tg Q entries1 acc = searchLoop st2 sc tg Q entries2 acc.
Proof.
  intros Hfiles. revert entries2 acc.
  induction entries1 as [|[i e] entries1 IH]; intros [|[i' e'] entries2] acc;
    simpl; try done.
  intros [= <- Hkeys]. unfold loadKnowledgeFile. rewrite <- Hfiles.
  destruct (files st1 !! i) as [doc|]; [|by apply IH].
  destruct (filterByScope (asKnowledgeItem doc) sc None); simpl;
    [|by apply IH].
  destruct (filterByTags (asKnowledgeItem doc) tg); simpl; [|by apply IH].
  destruct (wellTyped doc); simpl; [|done].
  destruct (0 <? calculateRelevanceScore (asKnowledgeItem doc) Q);
    by apply IH.
Qed.

Lemma take_descending n l : descending l → descending (take n l).
Proof.
  intros Hl i j a b Hij Ha Hb.
  apply lookup_take_Some in Ha as [Ha _].
  apply lookup_take_Some in Hb as [Hb _]. by apply (Hl i j a b).
Qed.

Lemma slice0_nonneg {A} (n : Z) (l : list A) :
  0 ≤ n → slice0 n l = take (Z.to_nat n) l.
Proof.
  intros Hn. unfold slice0.
  destruct (n <? 0) eqn:Hlt; [apply Z.ltb_lt in Hlt; lia|].
  destruct (decide (n ≤ Z.of_nat (length l))) as [H|H].
  - by rewrite Z.min_l.
  - rewrite Z.min_r, Nat2Z.id by lia. rewrite !take_ge; [done|lia..].
Qed.

Lemma rankedResults_loop now input st ranked :
  rankedResults now input st = Return ranked →
  ∃ query rs,
    in_query input = Some query
    ∧ searchLoop st (default SearchAll (in_scope input)) (in_tags input)
        (tokenize query) (items (loadIndex now st)) []
      = Return rs
    ∧ ranked = sortResults rs.
Proof.
  unfold rankedResults. destruct (in_query input) as [query|]; [|done].
  destruct (searchLoop _ _ _ _ _ _) as [rs|] eqn:Hloop; [|done].
  intros [= <-]. by exists query, rs.
Qed.

Lemma search_ranked now input st rs :
  handleSearchKnowledge now input st = Return rs →
  ∃ ranked, rankedResults now input st = Return ranked
            ∧ rs = slice (limitOrDefault input) ranked.
Proof.
  unfold handleSearchKnowledge.
  destruct (rankedResults now input st) as [ranked|]; [|done].
  intros [= <-]. eauto.
Qed.

(** X1. The results of a search are in descending order of score. *)
Theorem search_results_descend (now : jsstring)
    (input : SearchKnowledgeInput) (st : Store) (rs : list SearchResult) :
  handleSearchKnowledge now input st = Return rs → descending rs.
Proof.
  intros (ranked & (query & l & _ & _ & ->)%rankedResults_loop & ->)%search_ranked.
  apply take_descending, sortResults_descending.
Qed.

(** X2. With a limit that is not negative (10 when none is passed) the
    search returns the first [k] ranked matches, where [k] is the integer
    part of the limit (k <= limit < k + 1: [slice] cuts a fraction off),
    and all of them when there are fewer: the result is never padded, a
    limit below 1 gives the empty result, and a limit that is at least the
    number of matches gives them all. *)
Theorem search_limit_truncates (now : jsstring)
    (input : SearchKnowledgeInput) (st : Store)
    (ranked : list SearchResult) :
  QArith_base.Qle (QArith_base.inject_Z 0) (limitOrDefault input) →
  rankedResults now input st = Return ranked →
  let limit := limitOrDefault input in
  let k := toIntegerOrInfinity limit in
  (0 ≤ k
   ∧ QArith_base.Qle (QArith_base.inject_Z k) limit
   ∧ QArith_base.Qlt limit (QArith_base.inject_Z (k + 1)))
  ∧ (∀ z : Z, limit = QArith_base.inject_Z z → k = z)
  ∧ handleSearchKnowledge now input st = Return (take (Z.to_nat k) ranked)
  ∧ Z.of_nat (length (take (Z.to_nat k) ranked))
    = Z.min k (Z.of_nat (length ranked))
  ∧ (QArith_base.Qlt limit (QArith_base.inject_Z 1) →
     take (Z.to_nat k) ranked = [])
  ∧ (QArith_base.Qle (QArith_base.inject_Z (Z.of_nat (length ranked))) limit
     → take (Z.to_nat k) ranked = ranked).
Proof.
  intros Hl Hr limit k.
  destruct (toIntegerOrInfinity_nonneg limit Hl) as (Hk & Hlower & Hupper).
  fold k in Hk, Hlower, Hupper.
  split; [done|].
  split; [intros z Hz; unfold k; by rewrite Hz, toIntegerOrInfinity_inject_Z|].
  unfold handleSearchKnowledge, slice. rewrite Hr.
  fold limit. fold k. rewrite slice0_nonneg by done.
  split; [done|]. split; [rewrite length_take; lia|].
  destruct limit as [num den].
  unfold QArith_base.Qle, QArith_base.Qlt in *. simpl in *.
  split.
  - intros Hone. assert (k = 0) as -> by nia. done.
  - intros Hn. apply take_ge. nia.
Qed.

Lemma search_indexed now input st rs r :
  handleSearchKnowledge now input st = Return rs → r ∈ rs →
  ∃ i entry doc,
    (i, entry) ∈ items (loadIndex now st)
    ∧ files st !! i = Some doc
    ∧ wellTyped doc = true
    ∧ item r = asKnowledgeItem doc.
Proof.
  intros (ranked & (query & l & _ & Hloop & ->)%rankedResults_loop & ->)%search_ranked
    Hr.
  apply slice0_subseteq in Hr. rewrite sortResults_perm in Hr.
  destruct (searchLoop_indexed _ _ _ _ _ _ _ _ Hloop Hr) as [?%elem_of_nil|];
    done.
Qed.

(** X3. A search returns only records that are listed in the index and
    have their record file, with the content of the record file (not the
    index entry) and with title and content present: a record without an
    index entry is never found. *)
Theorem search_returns_indexed_records (now : jsstring)
    (input : SearchKnowledgeInput) (st : Store) (rs : list SearchResult)
    (r : SearchResult) :
  handleSearchKnowledge now input st = Return rs → r ∈ rs →
  ∃ i entry doc,
    (i, entry) ∈ items (loadIndex now st)
    ∧ files st !! i = Some doc
    ∧ wellTyped doc = true
    ∧ item r = asKnowledgeItem doc.
Proof. apply search_indexed. Qed.

(** X4. The search reads the index for its keys only: two stores with the
    same record files and the same sequence of index keys give the same
    answer, whatever the index entries hold. *)
Theorem search_reads_index_keys_only (now1 now2 : jsstring)
    (input : SearchKnowledgeInput) (st1 st2 : Store) :
  files st1 = files st2 →
  (items (loadIndex now1 st1)).*1 = (items (loadIndex now2 st2)).*1 →
  handleSearchKnowledge now1 input st1 = handleSearchKnowledge now2 input st2.
Proof.
  intros Hfiles Hkeys. unfold handleSearchKnowledge, rankedResults.
  destruct (in_query input) as [query|]; [|done].
  by rewrite (searchLoop_keys st1 st2 _ _ _ _ _ [] Hfiles Hkeys).
Qed.

(** ** Save and search together *)

Lemma setProperty_elem k v obj : (k, v) ∈ setProperty k v obj.
Proof.
  induction obj as [|[k' v'] obj IH]; simpl; [by left|].
  case_bool_decide; [by left | by right].
Qed.

Lemma setProperty_keys k v obj :
  (setProperty k v obj).*1
  = if bool_decide (k ∈ obj.*1) then obj.*1 else obj.*1 ++ [k].
Proof.
  induction obj as [|[k' v'] obj IH]; [done|]. cbn [setProperty].
  destruct (decide (k' = k)) as [-> | Hne].
  - rewrite bool_decide_eq_true_2 by done. rewrite !fmap_cons.
    by rewrite bool_decide_eq_true_2 by (by left).
  - rewrite (bool_decide_eq_false_2 (k' = k)) by done.
    rewrite !fmap_cons, IH. cbn [fst].
    destruct (decide (k ∈ obj.*1)) as [Hin | Hin].
    + rewrite !bool_decide_eq_true_2; [done | by right | done].
    + rewrite !bool_decide_eq_false_2; [done | | done].
      intros [?|?]%elem_of_cons; congruence.
Qed.

(** X5. Round trip: once an item is saved, a search whose filters it
    passes and whose query it scores above 0 against returns it with that
    score and with its full content, provided the limit is not below the
    number of index entries. *)
Theorem save_then_search_finds (timestamp uuid : jsstring) (args : SaveArgs)
    (st : Store) (now : jsstring) (input : SearchKnowledgeInput)
    (query : jsstring) (rs : list SearchResult) :
  let st' := (handleSaveKnowledge timestamp uuid args st).1 in
  let it := asKnowledgeItem (builtItem timestamp uuid args) in
  is_Some (arg_content args) →
  in_query input = Some query →
  filterByScope it (default SearchAll (in_scope input)) None = true →
  filterByTags it (in_tags input) = true →
  0 < calculateRelevanceScore it (tokenize query) →
  QArith_base.Qle
    (QArith_base.inject_Z (Z.of_nat (length (items (loadIndex now st')))))
    (limitOrDefault input) →
  handleSearchKnowledge now input st' = Return rs →
  {| item := it;
     score := calculateRelevanceScore it (tokenize query) |} ∈ rs.
Proof.
  intros st' it [c Hc] Hq Hsc Htg Hpos Hlimit Hrs.
  apply search_ranked in Hrs as (ranked & Hranked & ->).
  apply rankedResults_loop in Hranked as (query' & l & Hq' & Hloop & ->).
  assert (query' = query) as -> by congruence.
  assert (Z.of_nat (length (items (loadIndex now st')))
          ≤ toIntegerOrInfinity (limitOrDefault input)) as Hlimit'.
  { assert (QArith_base.Qle (QArith_base.inject_Z 0) (limitOrDefault input))
      as Hnonneg.
    { eapply QArith_base.Qle_trans; [|exact Hlimit].
      unfold QArith_base.Qle. simpl. lia. }
    destruct (toIntegerOrInfinity_nonneg _ Hnonneg) as (_ & _ & Hupper).
    revert Hlimit Hupper. destruct (limitOrDefault input) as [num den].
    unfold QArith_base.Qle, QArith_base.Qlt. simpl. nia. }
  unfold slice.
  assert (files st' !! uuid = Some (builtItem timestamp uuid args)
          ∧ ∃ e, (uuid, e) ∈ items (loadIndex now st')) as [Hfile [e He]].
  { unfold st'. rewrite (save_with_content _ _ _ _ c Hc). simpl.
    split; [by rewrite lookup_insert_eq|]. eexists. apply setProperty_elem. }
  pose proof (searchLoop_length _ _ _ _ _ _ _ Hloop) as Hlen. simpl in Hlen.
  rewrite slice0_nonneg by lia. rewrite take_ge.
  2:{ rewrite (Permutation_length (sortResults_perm l)). lia. }
  rewrite sortResults_perm.
  by apply (searchLoop_complete _ _ _ _ _ _ _ uuid e _ Hloop).
Qed.

Lemma save_leaves_other_ids_files timestamp uuid args st i :
  i ≠ uuid →
  files (handleSaveKnowledge timestamp uuid args st).1 !! i = files st !! i.
Proof.
  intros Hne. destruct (arg_content args) as [c|] eqn:Hc.
  - rewrite (save_with_content _ _ _ _ c Hc). simpl.
    by rewrite lookup_insert_ne.
  - rewrite (save_without_content _ _ _ _ Hc). simpl.
    by rewrite lookup_insert_ne.
Qed.

(** X6. A save touches the record and the index entry of its own id only,
    whether it succeeds or throws. *)
Theorem save_leaves_other_ids (timestamp uuid : jsstring) (args : SaveArgs)
    (st : Store) (i : jsstring) :
  i ≠ uuid →
  files (handleSaveKnowledge timestamp uuid args st).1 !! i = files st !! i
  ∧ indexedEntry (handleSaveKnowledge timestamp uuid args st).1 i
    = indexedEntry st i.
Proof.
  intros Hne. destruct (arg_content args) as [c|] eqn:Hc.
  - rewrite (save_with_content _ _ _ _ c Hc). unfold indexedEntry. simpl.
    rewrite lookup_insert_ne, getProperty_setProperty_ne by done.
    split; [done|]. unfold loadIndex. by destruct (indexFile st).
  - rewrite (save_without_content _ _ _ _ Hc). unfold indexedEntry. simpl.
    by rewrite lookup_insert_ne.
Qed.

(** X7. When the index file is missing or unreadable, a save starts a new
    index with its own entry only: the records saved before stay on disk but
    no later search returns them. *)
Theorem save_without_index_forgets_records (timestamp uuid : jsstring)
    (args : SaveArgs) (st : Store) (now : jsstring)
    (input : SearchKnowledgeInput) (rs : list SearchResult)
    (r : SearchResult) :
  indexFile st = None →
  handleSearchKnowledge now input
    (handleSaveKnowledge timestamp uuid args st).1 = Return rs →
  r ∈ rs →
  item r = asKnowledgeItem (builtItem timestamp uuid args)
  ∧ ∀ i, i ≠ uuid →
      files (handleSaveKnowledge timestamp uuid args st).1 !! i
      = files st !! i.
Proof.
  intros Hidx Hrs Hr. split.
  - destruct (search_indexed _ _ _ _ _ Hrs Hr) as (i & e & doc & Hin & Hf & _ & ->).
    destruct (arg_content args) as [c|] eqn:Hc.
    + rewrite (save_with_content _ _ _ _ c Hc) in Hin, Hf. simpl in Hin, Hf.
      unfold loadIndex in Hin. rewrite Hidx in Hin. simpl in Hin.
      apply list_elem_of_singleton in Hin as [= -> ->].
      rewrite lookup_insert_eq in Hf. by injection Hf as <-.
    + rewrite (save_without_content _ _ _ _ Hc) in Hin. simpl in Hin.
      unfold loadIndex in Hin. simpl in Hin. rewrite Hidx in Hin.
      by apply elem_of_nil in Hin.
  - intros i Hi. by apply save_leaves_other_ids_files.
Qed.

(** ** More on the score *)

Lemma sumZ_perm l k : l ≡ₚ k → sumZ l = sumZ k.
Proof. unfold sumZ. induction 1; simpl; lia. Qed.

(** X8. The score is additive in the query: a query list scores the sum of
    what its parts score, so a repeated query token counts each time, and
    the order of the query tokens does not matter. *)
Theorem score_adds_over_query (it : KnowledgeItem) (Q Q' : list jsstring) :
  calculateRelevanceScore it (Q ++ Q')
  = calculateRelevanceScore it Q + calculateRelevanceScore it Q'
  ∧ (Q ≡ₚ Q' → calculateRelevanceScore it Q = calculateRelevanceScore it Q').
Proof.
  rewrite !score_specScore. split; [apply specScore_app|].
  intros HQ. unfold specScore. apply sumZ_perm. by rewrite HQ.
Qed.

(** X9. The score is 0 exactly when no field token of the item equals or
    contains a query token: every item that is scored above 0 has a
    matching pair. *)
Theorem score_zero_iff_nothing_matches (it : KnowledgeItem)
    (Q : list jsstring) :
  calculateRelevanceScore it Q = 0
  ↔ ∀ q f, q ∈ Q → f ∈ allFieldTokens it → ¬ contains f q.
Proof. apply score_zero_iff_no_match. Qed.

(** X10. The score is bounded by the sizes of the query and of the fields:
    at most 10 for each pair of a query token and a title token, 8 for each
    pair with a tag, 2 for each pair with a content token. *)
Theorem score_upper_bound (it : KnowledgeItem) (Q : list jsstring) :
  calculateRelevanceScore it Q
  ≤ Z.of_nat (length Q)
    * (10 * Z.of_nat (length (tokenize (title it)))
       + 8 * Z.of_nat (length (tags it))
       + 2 * Z.of_nat (length (tokenize (content it)))).
Proof.
  assert (∀ e p fs q, 0 ≤ p ≤ e →
            fieldScore e p fs q ≤ e * Z.of_nat (length fs)) as Hfield.
  { intros e p fs q Hep. unfold fieldScore, sumZ.
    induction fs as [|f fs IH]; simpl length; simpl; [lia|].
    assert (pairWeight e p f q ≤ e); [|lia].
    unfold pairWeight. case_bool_decide; [lia|].
    destruct (includes f q); lia. }
  rewrite score_specScore. unfold specScore, sumZ.
  induction Q as [|q Q IH]; simpl length; simpl; [lia|].
  pose proof (Hfield 10 5 (tokenize (title it)) q ltac:(lia)).
  pose proof (Hfield 8 4 (map toLowerCase (tags it)) q ltac:(lia)) as H8.
  rewrite length_map in H8.
  pose proof (Hfield 2 1 (tokenize (content it)) q ltac:(lia)).
  lia.
Qed.

(** ** More on the tokenizer *)

Lemma wordChar_notSpace c : isWordChar c = true → isWhiteSpace c = false.
Proof.
  unfold isWordChar, isWhiteSpace.
  rewrite !orb_true_iff, !andb_true_iff, !N.leb_le, N.eqb_eq.
  intros H.
  rewrite !orb_false_iff, !andb_false_iff, !N.leb_gt, !N.eqb_neq. lia.
Qed.

(** X11. Every token is a non-empty run of word characters (ASCII
    letters, digits, underscore) of the lower-cased text. *)
Theorem tokens_are_words (x t : jsstring) :
  t ∈ tokenize x →
  t ≠ [] ∧ Forall (λ c, isWordChar c = true ∧ c ∈ toLowerCase x) t.
Proof.
  intros Ht.
  assert (Forall (λ c, c ∈ toLowerCase x) (toLowerCase x)) as Hall
    by (by apply Forall_forall).
  pose proof (tokenize_tokens (λ c, c ∈ toLowerCase x) x Hall) as H.
  rewrite Forall_forall in H. by destruct (H t Ht) as [[Hne _] Hw].
Qed.

(** The pieces of a split, put together, are the text without its white
    space. *)
Lemma concat_splitRuns s inRun piece :
  (inRun = true → piece = []) →
  concat (splitRuns inRun piece s)
  = piece ++ filter (λ c, isWhiteSpace c = false) s.
Proof.
  revert inRun piece. induction s as [|c s IH]; intros inRun piece Hrun.
  - simpl. by rewrite !app_nil_r.
  - rewrite filter_cons. cbn [splitRuns]. destruct (isWhiteSpace c) eqn:Hc.
    + rewrite decide_False by done.
      destruct inRun; simpl; rewrite IH by done; [|done].
      by rewrite Hrun.
    + rewrite decide_True by done. rewrite IH by done.
      by rewrite <- app_assoc.
Qed.

Lemma filter_nonempty_nil (l : list jsstring) :
  filter (λ token, (0 < length token)%nat) l = [] ↔ concat l = [].
Proof.
  induction l as [|t l IH]; [done|].
  rewrite filter_cons. destruct t as [|c t].
  - rewrite decide_False by (simpl; lia). done.
  - rewrite decide_True by (simpl; lia). done.
Qed.

Lemma replaceNonWord_space s :
  filter (λ c, isWhiteSpace c = false) (replaceNonWord s) = []
  ↔ Forall (λ c, isWordChar c = false) s.
Proof.
  unfold replaceNonWord. induction s as [|c s IH].
  - split; [constructor|done].
  - rewrite map_cons, filter_cons, Forall_cons.
    destruct (isWordChar c) eqn:Hw; simpl orb; cbv iota.
    + rewrite decide_True by (by apply wordChar_notSpace).
      split; [done|]. by intros [? _].
    + destruct (isWhiteSpace c) eqn:Hs.
      * rewrite decide_False by congruence. rewrite IH. tauto.
      * rewrite decide_False by done. rewrite IH. tauto.
Qed.

(** X12. A text has no tokens exactly when its lower-cased form holds no
    word character: the empty text, and a text of punctuation and white
    space only, tokenize to the empty list. *)
Theorem tokenize_nil_iff_no_word_char (x : jsstring) :
  tokenize x = [] ↔ Forall (λ c, isWordChar c = false) (toLowerCase x).
Proof.
  unfold tokenize, splitWhiteSpace.
  rewrite filter_nonempty_nil, concat_splitRuns by done. simpl.
  apply replaceNonWord_space.
Qed.

Lemma tokens_after_space r :
  filter (λ token, (0 < length token)%nat) (splitRuns true [] r)
  = filter (λ token, (0 < length token)%nat) (splitRuns false [] r).
Proof.
  destruct r as [|c r]; [done|]. cbn [splitRuns].
  destruct (isWhiteSpace c); [|done].
  by rewrite filter_cons, decide_False by (simpl; lia).
Qed.

Lemma tokens_at_space a w r inRun piece :
  (inRun = true → piece = []) → isWhiteSpace w = true →
  filter (λ token, (0 < length token)%nat) (splitRuns inRun piece (a ++ w :: r))
  = filter (λ token, (0 < length token)%nat) (splitRuns inRun piece a)
    ++ filter (λ token, (0 < length token)%nat) (splitRuns false [] r).
Proof.
  intros Hrun Hw. revert inRun piece Hrun.
  induction a as [|c a IH]; intros inRun piece Hrun.
  - cbn [app splitRuns]. rewrite Hw. destruct inRun.
    + rewrite Hrun by done. rewrite tokens_after_space.
      by rewrite filter_cons, decide_False by (simpl; lia).
    + rewrite !filter_cons, filter_nil, tokens_after_space.
      by destruct (decide _).
  - cbn [app splitRuns]. destruct (isWhiteSpace c).
    + destruct inRun; [by apply IH|].
      rewrite !filter_cons, IH by done. by destruct (decide _).
    + by apply IH.
Qed.

(** X13. A code unit that is not a word character separates tokens: when
    lower-casing treats the parts on either side of it independently, the
    tokens of the whole text are the tokens of the part before it followed
    by the tokens of the part after it. *)
Theorem tokenize_splits_at_separator (u v : jsstring) (c : N) :
  isWordChar c = false →
  toLowerCase (u ++ c :: v) = toLowerCase u ++ c :: toLowerCase v →
  tokenize (u ++ c :: v) = tokenize u ++ tokenize v.
Proof.
  intros Hc Hlower. unfold tokenize, splitWhiteSpace, replaceNonWord.
  rewrite Hlower, map_app, map_cons.
  apply tokens_at_space; [done|].
  rewrite Hc. simpl. by destruct (isWhiteSpace c) eqn:Hs.
Qed.

(** ** More on the filters *)

(** X14. An item without tags passes the tag filter only when no tag is
    requested; and requesting more tags never rejects an item that a
    non-empty request accepted. *)
Theorem tag_filter_edge_cases (it : KnowledgeItem)
    (requested more : list jsstring) :
  (tags it = [] →
   ∀ tg, filterByTags it tg = true ↔ tg = None ∨ tg = Some [])
  ∧ (requested ≠ [] → filterByTags it (Some requested) = true →
     filterByTags it (Some (requested ++ more)) = true).
Proof.
  split.
  - intros Hno tg. rewrite filterByTags_spec. split; [|tauto].
    intros [?|[?|(rq & _ & t & r & Ht & _)]]; [tauto..|].
    rewrite Hno in Ht. by apply elem_of_nil in Ht.
  - intros Hne. rewrite !filterByTags_spec.
    intros [[=]|[[=]|(rq & [= <-] & t & r & Ht & Hr & Heq)]]; [done|].
    right; right. exists (requested ++ more). split; [done|].
    exists t, r. rewrite elem_of_app. auto.
Qed.

(** ** When a search fails *)

Lemma untypedMatch_cons st sc tg i e entries :
  untypedMatch st sc tg ((i, e) :: entries)
  ↔ (∃ doc, files st !! i = Some doc
       ∧ filterByScope (asKnowledgeItem doc) sc None = true
       ∧ filterByTags (asKnowledgeItem doc) tg = true
       ∧ wellTyped doc = false)
    ∨ untypedMatch st sc tg entries.
Proof.
  unfold untypedMatch. split.
  - intros (i0 & e0 & d & [[= -> ->] | Hin]%elem_of_cons & H); [eauto|].
    right. eauto.
  - intros [(d & H) | (i0 & e0 & d & Hin & H)].
    + exists i, e, d. split; [by left | done].
    + exists i0, e0, d. split; [by right | done].
Qed.

Lemma searchLoop_throws st sc tg Q entries acc :
  (∃ err, searchLoop st sc tg Q entries acc = Throw err)
  ↔ untypedMatch st sc tg entries.
Proof.
  revert acc. induction entries as [|[i e] entries IH]; intros acc.
  - simpl. split; [by intros [? [=]]|].
    by intros (? & ? & ? & ?%elem_of_nil & _).
  - rewrite untypedMatch_cons. simpl. unfold loadKnowledgeFile.
    destruct (files st !! i) as [doc|] eqn:Hfile.
    2:{ rewrite IH. split; [auto|]. by intros [(? & [=] & _)|]. }
    destruct (filterByScope (asKnowledgeItem doc) sc None) eqn:Hsc; simpl.
    2:{ rewrite IH. split; [auto|].
        intros [(? & [= <-] & ? & _)|]; [congruence|done]. }
    destruct (filterByTags (asKnowledgeItem doc) tg) eqn:Htg; simpl.
    2:{ rewrite IH. split; [auto|].
        intros [(? & [= <-] & _ & ? & _)|]; [congruence|done]. }
    destruct (wellTyped doc) eqn:Hwt; simpl.
    + destruct (0 <? calculateRelevanceScore (asKnowledgeItem doc) Q);
        rewrite IH; (split; [auto|]);
        (intros [(? & [= <-] & _ & _ & ?)|]; [congruence|done]).
    + split; [|eauto]. intros _. left. eauto.
Qed.

Lemma search_throws now input st :
  handleSearchKnowledge now input st = Throw TypeError
  ↔ in_query input = None
    ∨ untypedMatch st (default SearchAll (in_scope input)) (in_tags input)
        (items (loadIndex now st)).
Proof.
  unfold handleSearchKnowledge, rankedResults.
  destruct (in_query input) as [query|]; [|by split; auto].
  rewrite <- (searchLoop_throws st _ _ (tokenize query) _ []).
  destruct (searchLoop _ _ _ _ _ _) as [rs | []]; simpl.
  - split; [done | by intros [[=] | [? [=]]]].
  - split; eauto.
Qed.

(** X29. A search fails whenever the call carries no query, and whenever
    the index lists a record file that passes the scope filter and the tag
    filter and lacks its title or its content: whatever the limit is and
    whatever else the store holds, the call is answered with an error, not
    with the other matches. *)
Theorem search_fails_on_untitled_match (now : jsstring)
    (input : SearchKnowledgeInput) (st : Store) :
  (in_query input = None →
   handleSearchKnowledge now input st = Throw TypeError)
  ∧ ((∃ i entry doc,
        (i, entry) ∈ items (loadIndex now st)
        ∧ files st !! i = Some doc
        ∧ filterByScope (asKnowledgeItem doc)
            (default SearchAll (in_scope input)) None = true
        ∧ filterByTags (asKnowledgeItem doc) (in_tags input) = true
        ∧ wellTyped doc = false) →
     handleSearchKnowledge now input st = Throw TypeError).
Proof.
  split; intros H; apply search_throws; [by left | by right].
Qed.


End Knowledge.

(** * The properties on ASCII text *)

Lemma asciiLower_no_upper s c : c ∈ asciiLower s → isAsciiUpper c = false.
Proof.
  unfold asciiLower. intros [d [-> _]]%list_elem_of_fmap.
  unfold isAsciiUpper. destruct ((65 <=? d) && (d <=? 90))%N eqn:Hd; [|done].
  apply andb_true_iff in Hd as [H1%N.leb_le H2%N.leb_le].
  apply andb_false_iff. right. apply N.leb_gt. lia.
Qed.

Lemma asciiLower_fixes s :
  Forall (λ c, (c < 128)%N ∧ isAsciiUpper c = false) s → asciiLower s = s.
Proof.
  unfold asciiLower. induction 1 as [|c s [_ Hc] _ IH]; simpl; [done|].
  by rewrite Hc, IH.
Qed.

Lemma exampleStore_typed : storeTyped exampleStore.
Proof.
  unfold exampleStore. apply save_preserves_storeTyped; [|by eexists..].
  apply save_preserves_storeTyped; [|by eexists..].
  apply storeTyped_empty.
Qed.

(** ** Witnesses *)

Lemma tokenize_idempotent_witness :
  tokenize asciiLower
    (join [SPACE] (tokenize asciiLower (js "  Hello, World!  foo_bar ")))
  = tokenize asciiLower (js "  Hello, World!  foo_bar ").
Proof.
  apply (tokenize_idempotent asciiLower asciiLower_no_upper asciiLower_fixes).
Defined.

Lemma tag_filter_is_any_match_witness :
  tags abItem = [js "a"; js "b"]
  ∧ filterByTags asciiLower abItem (Some [js "b"; js "z"]) = true
  ∧ filterByTags asciiLower abItem (Some [js "z"; js "y"]) = false.
Proof.
  split; [reflexivity|].
  exact (proj2 (tag_filter_is_any_match asciiLower asciiLower_fixes)
           abItem eq_refl).
Defined.

Lemma score_grows_with_title_token_witness :
  js "naming" ∈ tokenize asciiLower (title namingItem)
  ∧ calculateRelevanceScore asciiLower namingItem [js "use"]
    < calculateRelevanceScore asciiLower namingItem
        ([js "use"] ++ [js "naming"]).
Proof.
  assert (js "naming" ∈ tokenize asciiLower (title namingItem)) as H.
  { apply list_elem_of_In. vm_compute. left. reflexivity. }
  split; [exact H|].
  apply (score_grows_with_title_token asciiLower namingItem [js "use"]
           (js "naming") H).
Defined.

Lemma scope_filter_accepts_witness :
  js "/repo" ≠ []
  ∧ (filterByScope buildItem SearchProject (Some (js "/repo")) = true
     ↔ scope buildItem = ScopeProject
       ∧ projectPath buildItem = Some (js "/repo")).
Proof.
  assert (js "/repo" ≠ []) as H by (vm_compute; discriminate).
  split; [exact H|].
  destruct (scope_filter_accepts asciiLower) as (_ & _ & _ & _ & Hpath & _).
  exact (Hpath buildItem (js "/repo") H).
Defined.

Lemma zero_score_items_are_excluded_witness :
  storeTyped exampleStore
  ∧ handleSearchKnowledge asciiLower exampleNow
      (exampleSearch "camelCase" None) exampleStore
    = Return [{| item := namingItem; score := 2 |}]
  ∧ noPairMatches asciiLower buildItem (tokenize asciiLower (js "camelCase"))
  ∧ calculateRelevanceScore asciiLower buildItem
      (tokenize asciiLower (js "camelCase")) = 0
  ∧ ∀ r, r ∈ [{| item := namingItem; score := 2 |}] → item r ≠ buildItem.
Proof.
  assert (handleSearchKnowledge asciiLower exampleNow
            (exampleSearch "camelCase" None) exampleStore
          = Return [{| item := namingItem; score := 2 |}]) as Hrs
    by (vm_compute; reflexivity).
  assert (noPairMatches asciiLower buildItem
            (tokenize asciiLower (js "camelCase"))) as Hno
    by (apply noPairMatchesb_sound; vm_compute; reflexivity).
  split; [exact exampleStore_typed|]. split; [exact Hrs|].
  split; [exact Hno|].
  destruct (zero_score_items_are_excluded asciiLower exampleNow
              (exampleSearch "camelCase" None) exampleStore) as [_ H].
  destruct (H _ Hrs) as (query & [= <-] & Hex & _). exact (Hex buildItem Hno).
Defined.

Lemma negative_limit_drops_last_matches_witness :
  in_limit (exampleSearch "variables" (Some (-1)))
  = Some (QArith_base.inject_Z (-1))
  ∧ QArith_base.Qlt (QArith_base.inject_Z (-1)) (QArith_base.inject_Z 0)
  ∧ rankedResults asciiLower exampleNow
      (exampleSearch "variables" (Some (-1))) exampleStore
    = Return [{| item := namingItem; score := 2 |};
              {| item := buildItem; score := 2 |}]
  ∧ handleSearchKnowledge asciiLower exampleNow
      (exampleSearch "variables" (Some (-1))) exampleStore
    = Return [{| item := namingItem; score := 2 |}].
Proof.
  assert (QArith_base.Qlt (QArith_base.inject_Z (-1))
            (QArith_base.inject_Z 0)) as Hneg by reflexivity.
  assert (QArith_base.Qle (QArith_base.inject_Z (-1))
            (QArith_base.inject_Z (-1))) as Hone
    by (unfold QArith_base.Qle; simpl; lia).
  assert (rankedResults asciiLower exampleNow
            (exampleSearch "variables" (Some (-1))) exampleStore
          = Return [{| item := namingItem; score := 2 |};
                    {| item := buildItem; score := 2 |}]) as Hr
    by (vm_compute; reflexivity).
  split; [reflexivity|]. split; [exact Hneg|]. split; [exact Hr|].
  destruct (negative_limit_drops_last_matches asciiLower exampleNow
              (exampleSearch "variables" (Some (-1))) exampleStore
              _ (QArith_base.inject_Z (-1)) eq_refl Hneg Hr)
    as (_ & _ & Hinteger & _).
  exact (proj1 (Hinteger Hone)).
Defined.

Lemma index_content_is_prefix_witness :
  indexConsistent emptyStore
  ∧ freshOrComplete (save_knowledge exampleNow (js "id-1") namingArgs)
      emptyStore
  ∧ indexConsistent
      (callTool asciiLower (save_knowledge exampleNow (js "id-1") namingArgs)
         emptyStore).1.
Proof.
  assert (freshOrComplete (save_knowledge exampleNow (js "id-1") namingArgs)
            emptyStore) as Hadm by (right; reflexivity).
  destruct (index_content_is_prefix asciiLower
              (save_knowledge exampleNow (js "id-1") namingArgs) emptyStore)
    as [Hempty Hstep].
  split; [exact Hempty|]. split; [exact Hadm|]. exact (Hstep Hempty Hadm).
Defined.

Lemma save_does_not_validate_witness :
  arg_content noContentArgs = None
  ∧ (callTool asciiLower
       (save_knowledge exampleNow (js "id-9") noContentArgs) emptyStore).2
    = ErrorReply TypeError
  ∧ indexFile
      (callTool asciiLower
         (save_knowledge exampleNow (js "id-9") noContentArgs) emptyStore).1
    = indexFile emptyStore
  ∧ files
      (callTool asciiLower
         (save_knowledge exampleNow (js "id-9") noContentArgs) emptyStore).1
    !! js "id-9"
    = Some (builtItem exampleNow (js "id-9") noContentArgs).
Proof.
  destruct (save_does_not_validate asciiLower exampleNow (js "id-9")
              noContentArgs emptyStore) as (Hfile & Hnone & _).
  destruct (Hnone eq_refl) as [Hreply Hindex].
  split; [reflexivity|]. split; [exact Hreply|]. split; [exact Hindex|].
  exact Hfile.
Defined.

(** ** Counterexamples *)

(** C5 as stated fails for the empty string as the caller's path: the
    filter accepts a project item whose [projectPath] is another string. *)
Lemma scope_filter_empty_path_counterexample :
  ¬ (filterByScope buildItem SearchProject (Some []) = true
     → scope buildItem = ScopeProject ∧ projectPath buildItem = Some []).
Proof. intros H. destruct (H eq_refl) as [_ [=]]. Qed.

(** C3 as stated fails: save creates a global item that has a
    [projectPath], and a project item that has none. *)
Lemma save_scope_path_counterexample :
  (∃ st' saved,
     handleSaveKnowledge exampleNow (js "id-4") globalWithPathArgs emptyStore
     = (st', Return saved)
     ∧ doc_scope saved = ScopeGlobal
     ∧ doc_projectPath saved = Some (js "/repo")
     ∧ ¬ (is_Some (doc_projectPath saved) ↔ doc_scope saved = ScopeProject))
  ∧ (∃ st' saved,
       handleSaveKnowledge exampleNow (js "id-5") projectWithoutPathArgs
         emptyStore
       = (st', Return saved)
       ∧ doc_scope saved = ScopeProject
       ∧ doc_projectPath saved = None
       ∧ ¬ (is_Some (doc_projectPath saved)
            ↔ doc_scope saved = ScopeProject)).
Proof.
  split; eexists _, _; (split; [reflexivity|]);
    (split; [reflexivity|]); (split; [reflexivity|]); simpl.
  - intros [H _]. discriminate H. by eexists.
  - intros [_ H]. by destruct H as [? [=]].
Qed.

(** C10 as stated fails for a negative limit that is not an integer: with
    the limit -1/2 and two ranked matches, n > |limit| and yet the search
    returns the empty list, because [slice] cuts -1/2 to 0. *)
Lemma negative_limit_fraction_counterexample :
  in_limit fractionalSearch = Some (QArith_base.Qmake (-1) 2)
  ∧ QArith_base.Qlt (QArith_base.Qmake (-1) 2) (QArith_base.inject_Z 0)
  ∧ ∃ ranked,
      rankedResults asciiLower exampleNow fractionalSearch exampleStore
      = Return ranked
      ∧ QArith_base.Qlt (QArith_base.Qopp (QArith_base.Qmake (-1) 2))
          (QArith_base.inject_Z (Z.of_nat (length ranked)))
      ∧ ¬ (handleSearchKnowledge asciiLower exampleNow fractionalSearch
             exampleStore
           ≠ Return []).
Proof.
  split; [reflexivity|]. split; [reflexivity|].
  exists [{| item := namingItem; score := 2 |};
          {| item := buildItem; score := 2 |}].
  split; [vm_compute; reflexivity|]. split; [reflexivity|].
  intros H. apply H. vm_compute. reflexivity.
Qed.

(** ** The model on the examples of the specification *)

(** Round trip: the saved item is found by a word of its content. *)
Example round_trip_save_search :
  handleSearchKnowledge asciiLower exampleNow
    (exampleSearch "camelCase" None)
    (handleSaveKnowledge exampleNow (js "id-1") namingArgs emptyStore).1
  = Return [{| item := namingItem; score := 2 |}].
Proof. vm_compute. reflexivity. Qed.

(** A limit of 0 gives no results; a limit above the number of matches
    gives all of them. *)
Example limit_boundaries :
  handleSearchKnowledge asciiLower exampleNow
    (exampleSearch "variables" (Some 0)) exampleStore = Return []
  ∧ handleSearchKnowledge asciiLower exampleNow
      (exampleSearch "variables" (Some 5)) exampleStore
    = Return [{| item := namingItem; score := 2 |};
              {| item := buildItem; score := 2 |}].
Proof. split; vm_compute; reflexivity. Qed.

(** A save without a title succeeds, and the record it leaves makes a later
    search that reaches the scorer throw. *)
Example search_after_save_without_title :
  let saved :=
    callTool asciiLower (save_knowledge exampleNow (js "id-8") noTitleArgs)
      emptyStore in
  isError saved.2 = false
  ∧ (callTool asciiLower
       (search_knowledge exampleNow (exampleSearch "content" None))
       saved.1).2
    = ErrorReply TypeError.
Proof. split; vm_compute; reflexivity. Qed.

(** Scores add up over all pairs: "naming" and "style" match title and tag
    exactly, "camel" is a proper substring of a content token. *)
Example score_example :
  calculateRelevanceScore asciiLower namingItem
    (tokenize asciiLower (js "naming style camel")) = 19.
Proof. vm_compute. reflexivity. Qed.

(** * Properties of the other tools *)

(** ** Argument checks *)

Lemma nonEmptyString_spec v :
  negb (jsTruthy v) || negb (isString v) = false
  ↔ ∃ s, v = JString s ∧ s ≠ [].
Proof.
  destruct v as [| |b|q|s|l|]; simpl;
    try (split; [try done; by rewrite orb_true_r | by intros (? & [=] & _)]).
  rewrite orb_false_r, negb_involutive. rewrite bool_decide_eq_false.
  split; [eauto|]. by intros (? & [= <-] & ?).
Qed.

Lemma taskMode_spec v :
  negb (jsTruthy v) || negb (includesValue taskModes v) = false
  ↔ ∃ m, v = JString m ∧ m ∈ taskModes.
Proof.
  destruct v as [| |b|q|s|l|]; simpl;
    try (split; [try done; by rewrite orb_true_r | by intros (? & [=] & _)]).
  rewrite orb_false_iff, !negb_false_iff, negb_true_iff.
  rewrite bool_decide_eq_false, bool_decide_eq_true. split.
  - intros [_ ?]. eauto.
  - intros (? & [= <-] & Hm). split; [|done]. intros ->.
    apply list_elem_of_In in Hm. vm_compute in Hm. intuition discriminate.
Qed.

Lemma handleTaskBoundary_valid timestamp args dir :
  validTaskArgs args →
  handleTaskBoundary timestamp args dir
  = (saveState
       {| state_currentTask := Some
            {| task_taskName := asString (TaskName args);
               task_mode := asString (Mode args);
               task_taskStatus := asString (TaskStatus args);
               task_taskSummary := TaskSummary args;
               task_predictedTaskSize := PredictedTaskSize args;
               task_createdAt :=
                 default timestamp
                   (task_createdAt
                      <$> state_currentTask (loadState timestamp dir));
               task_updatedAt := timestamp;
               task_modeHistory :=
                 let previousMode :=
                   task_mode <$> state_currentTask (loadState timestamp dir) in
                 let history :=
                   default []
                     (task_modeHistory
                        <$> state_currentTask (loadState timestamp dir)) in
                 if negb (bool_decide
                            (previousMode = Some (asString (Mode args))))
                 then history ++ [{| change_from := previousMode;
                                     change_to := asString (Mode args);
                                     change_timestamp := timestamp |}]
                 else history |};
          state_lastUpdated := timestamp |} dir,
     Accepted).
Proof.
  intros (Hn%nonEmptyString_spec & Hm%taskMode_spec & Hs%nonEmptyString_spec).
  unfold handleTaskBoundary. by rewrite Hn, Hm, Hs.
Qed.

Lemma handleTaskBoundary_invalid timestamp args dir :
  ¬ validTaskArgs args →
  ∃ text, handleTaskBoundary timestamp args dir = (dir, Rejected text).
Proof.
  intros Hbad. unfold handleTaskBoundary.
  destruct (negb (jsTruthy (TaskName args)) || negb (isString (TaskName args)))
    eqn:Hn; [eauto|].
  destruct (negb (jsTruthy (Mode args))
            || negb (includesValue taskModes (Mode args))) eqn:Hm; [eauto|].
  destruct (negb (jsTruthy (TaskStatus args))
            || negb (isString (TaskStatus args))) eqn:Hs; [eauto|].
  destruct Hbad. unfold validTaskArgs.
  by rewrite <- !nonEmptyString_spec, <- taskMode_spec.
Qed.

Lemma validTaskArgs_dec args : validTaskArgs args ∨ ¬ validTaskArgs args.
Proof.
  unfold validTaskArgs.
  rewrite <- !nonEmptyString_spec, <- taskMode_spec.
  destruct (negb (jsTruthy (TaskName args)) || negb (isString (TaskName args)));
    destruct (negb (jsTruthy (Mode args))
              || negb (includesValue taskModes (Mode args)));
    destruct (negb (jsTruthy (TaskStatus args))
              || negb (isString (TaskStatus args)));
    intuition congruence.
Qed.

(** X15. [task_boundary] accepts a call exactly when [TaskName] and
    [TaskStatus] are non-empty strings and [Mode] is one of PLANNING,
    EXECUTION, VERIFICATION; a call it rejects is answered with an error
    text and writes nothing. *)
Theorem task_boundary_validates (timestamp : jsstring)
    (args : TaskBoundaryArgs) (dir : AgentDir) :
  ((handleTaskBoundary timestamp args dir).2 = Accepted ↔ validTaskArgs args)
  ∧ ((handleTaskBoundary timestamp args dir).2 ≠ Accepted →
     (handleTaskBoundary timestamp args dir).1 = dir).
Proof.
  destruct (validTaskArgs_dec args) as [Hv | Hv].
  - rewrite (handleTaskBoundary_valid _ _ _ Hv). simpl. tauto.
  - destruct (handleTaskBoundary_invalid timestamp args dir Hv) as [text ->].
    simpl. split; [|done]. split; [done|tauto].
Qed.


(** ** The mode history *)

Lemma modeAfter_snoc prev history change :
  modeAfter prev (history ++ [change]) = Some (change_to change).
Proof. unfold modeAfter. by rewrite last_snoc. Qed.

Lemma linkedFrom_snoc prev history change :
  linkedFrom prev history →
  change_from change = modeAfter prev history →
  modeAfter prev history ≠ Some (change_to change) →
  linkedFrom prev (history ++ [change]).
Proof.
  revert prev. induction history as [|c history IH]; intros prev; simpl.
  - unfold modeAfter. simpl. done.
  - intros (Hf & Hne & Hl) Hfrom Hto. split; [done|]. split; [done|].
    apply IH; [done|..].
    + rewrite Hfrom. unfold modeAfter. rewrite last_cons.
      by destruct (last history).
    + intros Heq. apply Hto. rewrite <- Heq. unfold modeAfter.
      rewrite last_cons. by destruct (last history).
Qed.

Lemma handleTaskBoundary_linked timestamp args dir :
  stateLinked dir → stateLinked (handleTaskBoundary timestamp args dir).1.
Proof.
  intros Hdir. destruct (validTaskArgs_dec args) as [Hv | Hv].
  2:{ by destruct (handleTaskBoundary_invalid timestamp args dir Hv) as [? ->]. }
  rewrite (handleTaskBoundary_valid _ _ _ Hv). simpl.
  intros state task [= <-] [= <-]. unfold taskLinked. simpl.
  unfold loadState.
  destruct (stateFile dir) as [[[old|] updated]|] eqn:Hfile; simpl.
  - destruct (Hdir _ old Hfile eq_refl) as [Hlinked Hlast].
    case_bool_decide as Hmode; simpl.
    + injection Hmode as <-. done.
    + split; [|apply modeAfter_snoc].
      apply linkedFrom_snoc; simpl; [done|by rewrite Hlast|].
      rewrite Hlast. congruence.
  - done.
  - done.
Qed.

(** X16. The mode history of the current task is a chain: it starts from
    no mode, every change starts from the mode the one before led to and
    leads to another mode, and the last change leads to the task's mode.
    This holds with no file, after a reset, and after every
    [task_boundary] and [notify_user] call on a directory where it held. *)
Theorem mode_history_is_linked (timestamp now : jsstring)
    (taskArgs : TaskBoundaryArgs) (notifyArgs : NotifyArgs)
    (preserve : option bool) (dir : AgentDir) :
  stateLinked emptyDir
  ∧ stateLinked (handleResetAgentState timestamp now preserve dir)
  ∧ (stateLinked dir →
     stateLinked (handleTaskBoundary timestamp taskArgs dir).1
     ∧ stateLinked (handleNotifyUser timestamp notifyArgs dir).1).
Proof.
  split; [by intros ? ? [=]|]. split; [by intros ? ? [= <-] [=]|].
  intros Hdir. split; [by apply handleTaskBoundary_linked|].
  intros state task Hfile. apply Hdir.
  unfold handleNotifyUser in Hfile.
  repeat (match type of Hfile with
          | context [if ?c then _ else _] => destruct c
          end; simpl in Hfile; try done).
Qed.

(** X17. While a task is current, no [task_boundary] call restarts it:
    whatever the arguments (another task name too), the task that is
    current afterwards has the same [createdAt], and its mode history is the
    old one, with at most one change added at the end. *)
Theorem task_boundary_keeps_task_start (timestamp : jsstring)
    (args : TaskBoundaryArgs) (dir : AgentDir) (state : AntiGravityState)
    (task : TaskState) :
  stateFile dir = Some state → state_currentTask state = Some task →
  ∃ state' task',
    stateFile (handleTaskBoundary timestamp args dir).1 = Some state'
    ∧ state_currentTask state' = Some task'
    ∧ task_createdAt task' = task_createdAt task
    ∧ task_modeHistory task `prefix_of` task_modeHistory task'
    ∧ (length (task_modeHistory task')
       ≤ S (length (task_modeHistory task)))%nat.
Proof.
  intros Hfile Htask. destruct (validTaskArgs_dec args) as [Hv | Hv].
  2:{ destruct (handleTaskBoundary_invalid timestamp args dir Hv) as [? ->].
      exists state, task. simpl. repeat split; try done. lia. }
  rewrite (handleTaskBoundary_valid _ _ _ Hv). simpl.
  eexists _, _. split; [done|]. split; [done|]. simpl.
  unfold loadState. rewrite Hfile, Htask. simpl. split; [done|].
  case_bool_decide; simpl.
  - split; [done|lia].
  - split; [by apply prefix_app_r|]. rewrite length_app. simpl. lia.
Qed.


(** ** What [get_agent_state] reports *)

(** X18. After a [task_boundary] call that was accepted, [get_agent_state]
    reports the mode that was passed (never IDLE), the task name and status
    that were passed, and the call's time as last update. *)
Theorem agent_state_after_task_boundary (timestamp now : jsstring)
    (args : TaskBoundaryArgs) (projectPath_ : option jsstring)
    (dir : AgentDir) :
  (handleTaskBoundary timestamp args dir).2 = Accepted →
  let reported :=
    handleGetAgentState now projectPath_
      (handleTaskBoundary timestamp args dir).1 in
  JString (modeName (currentMode reported)) = Mode args
  ∧ currentMode reported ≠ IDLE
  ∧ (∃ current, currentTask reported = Some current
       ∧ JString (current_name current) = TaskName args
       ∧ JString (current_status current) = TaskStatus args
       ∧ current_summary current = TaskSummary args)
  ∧ agent_lastUpdated reported = timestamp.
Proof.
  intros Hacc. destruct (validTaskArgs_dec args) as [Hv | Hv].
  2:{ destruct (handleTaskBoundary_invalid timestamp args dir Hv) as [? H].
      by rewrite H in Hacc. }
  rewrite (handleTaskBoundary_valid _ _ _ Hv). simpl.
  destruct Hv as ((name & Hname & _) & (mode & Hmode & Hin) & (status & Hstatus & _)).
  unfold handleGetAgentState, loadTaskBoundaryState. simpl.
  rewrite Hname, Hmode, Hstatus. simpl.
  unfold taskModes in Hin.
  repeat (apply elem_of_cons in Hin as [-> | Hin];
          [split; [by vm_compute|]; split; [by vm_compute|];
           split; [|done]; eexists; split; [done|]; by repeat split|]).
  by apply elem_of_nil in Hin.
Qed.




Lemma sliceLast_short {A} n (l : list A) :
  (length l ≤ n)%nat → sliceLast n l = l.
Proof.
  intros H. unfold sliceLast. by replace (length l - n)%nat with 0%nat by lia.
Qed.


(** X20. After a reset, [get_agent_state] reports the mode IDLE, no task,
    no mode history, no artifacts and no pending reviews; the counters are 0,
    or the ones of the statistics file when statistics are preserved, with
    the session start set to the time of the reset.  The reset leaves the
    notification history as it was. *)
Theorem agent_state_after_reset (timestamp now now' : jsstring)
    (preserve : option bool) (projectPath_ : option jsstring)
    (dir : AgentDir) :
  let dir' := handleResetAgentState timestamp now preserve dir in
  let reported := handleGetAgentState now' projectPath_ dir' in
  currentMode reported = IDLE
  ∧ currentTask reported = None
  ∧ modeHistory reported = []
  ∧ recentArtifacts reported = []
  ∧ pendingReviews reported = []
  ∧ agent_lastUpdated reported = timestamp
  ∧ (preserve ≠ Some true →
     statistics reported = createDefaultStatistics now)
  ∧ (preserve = Some true →
     ∀ old, statisticsFile dir = Some old →
       toolCallsInSession (statistics reported) = toolCallsInSession old
       ∧ tasksCompleted (statistics reported) = tasksCompleted old
       ∧ filesModified (statistics reported) = filesModified old
       ∧ testsRun (statistics reported) = testsRun old
       ∧ errorsEncountered (statistics reported) = errorsEncountered old
       ∧ sessionStartedAt (statistics reported) = timestamp)
  ∧ notificationsFile dir' = notificationsFile dir.
Proof.
  simpl. do 6 (split; [done|]). split; [|split; [|done]].
  - intros Hp. unfold loadStatistics. simpl.
    by destruct preserve as [[]|].
  - intros -> old Hold. unfold loadStatistics. simpl.
    unfold loadStatistics. by rewrite Hold.
Qed.

(** X21. The first [task_boundary] call that is accepted after a reset
    starts the task anew: its [createdAt] is the time of the call and its
    mode history is the one change from no mode to the mode passed. *)
Theorem task_boundary_after_reset (resetTime now timestamp : jsstring)
    (preserve : option bool) (args : TaskBoundaryArgs) (dir : AgentDir) :
  validTaskArgs args →
  ∃ state task,
    stateFile
      (handleTaskBoundary timestamp args
         (handleResetAgentState resetTime now preserve dir)).1 = Some state
    ∧ state_currentTask state = Some task
    ∧ task_createdAt task = timestamp
    ∧ task_modeHistory task
      = [{| change_from := None;
            change_to := asString (Mode args);
            change_timestamp := timestamp |}].
Proof.
  intros Hv. rewrite (handleTaskBoundary_valid _ _ _ Hv). simpl.
  eexists _, _. split; [done|]. split; [done|]. simpl. done.
Qed.


(** ** [notify_user] *)

Lemma optionalBoolean_spec v :
  isDefined v && negb (isBoolean v) = false
  ↔ optionalArg (λ v, ∃ b, v = JBool b) v.
Proof.
  unfold optionalArg.
  destruct v; simpl; split; try done; eauto;
    by intros [[=] | [? [=]]].
Qed.

Lemma optionalString_spec v :
  isDefined v && negb (isString v) = false
  ↔ optionalArg (λ v, ∃ s, v = JString s) v.
Proof.
  unfold optionalArg.
  destruct v; simpl; split; try done; eauto;
    by intros [[=] | [? [=]]].
Qed.

Lemma allStrings_spec paths :
  forallb isString paths = true ↔ Forall (λ p, ∃ s, p = JString s) paths.
Proof.
  induction paths as [|p paths IH]; simpl; [by split; [constructor|]|].
  rewrite andb_true_iff, Forall_cons, IH.
  destruct p; simpl; split; try (by intros [[=] _]); try (by intros [[? [=]] _]).
  - intros [_ ?]. eauto.
  - intros [_ ?]. done.
Qed.

Lemma optionalPaths_spec v :
  isDefined v && negb (isArray v) = false
  ∧ isDefined v && negb (forallb isString (default [] (asArray v))) = false
  ↔ optionalArg (λ v, ∃ paths, v = JArray paths
                   ∧ Forall (λ p, ∃ s, p = JString s) paths) v.
Proof.
  unfold optionalArg.
  destruct v; simpl; try (split; [by intros [[=] _] | by intros [[=] | (? & [=] & _)]]).
  - split; [by left | done].
  - rewrite negb_false_iff, allStrings_spec. split.
    + intros [_ ?]. right. eauto.
    + by intros [[=] | (? & [= <-] & ?)].
Qed.

Lemma optionalScore_spec v :
  isDefined v && negb (isNumber v) = false
  ∧ isDefined v && outsideUnitInterval v = false
  ↔ optionalArg (λ v, ∃ q, v = JNumber q ∧ inUnitInterval q) v.
Proof.
  unfold optionalArg, inUnitInterval.
  destruct v; simpl; try (split; [by intros [[=] _] | by intros [[=] | (? & [=] & _)]]).
  - split; [by left | done].
  - rewrite orb_false_iff, !negb_false_iff, !QArith_base.Qle_bool_iff. split.
    + intros [_ ?]. right. eauto.
    + by intros [[=] | (? & [= <-] & ?)].
Qed.

Lemma handleNotifyUser_valid timestamp args dir :
  validNotifyArgs args →
  handleNotifyUser timestamp args dir
  = (saveNotificationHistory
       (loadNotificationHistory dir
        ++ [{| note_timestamp := timestamp;
               note_message := asString (Message args);
               note_pathsToReview :=
                 map asString <$> asArray (PathsToReview args);
               note_blockedOnUser := asBoolean (BlockedOnUser args);
               note_confidenceScore := asNumber (ConfidenceScore args);
               note_confidenceJustification :=
                 asOptionalString (ConfidenceJustification args);
               note_shouldAutoProceed :=
                 asBoolean (ShouldAutoProceed args) |}]) dir,
     Accepted).
Proof.
  intros (Hm%nonEmptyString_spec & [Hp1 Hp2]%optionalPaths_spec
          & Hb%optionalBoolean_spec & [Hc1 Hc2]%optionalScore_spec
          & Hj%optionalString_spec & Ha%optionalBoolean_spec).
  unfold handleNotifyUser. by rewrite Hm, Hp1, Hp2, Hb, Hc1, Hc2, Hj, Ha.
Qed.

Lemma handleNotifyUser_invalid timestamp args dir :
  ¬ validNotifyArgs args →
  ∃ text, handleNotifyUser timestamp args dir = (dir, Rejected text).
Proof.
  intros Hbad. unfold handleNotifyUser.
  destruct (negb (jsTruthy (Message args)) || negb (isString (Message args)))
    eqn:Hm; [eauto|].
  destruct (isDefined (PathsToReview args)
            && negb (isArray (PathsToReview args))) eqn:Hp1; [eauto|].
  destruct (isDefined (PathsToReview args)
            && negb (forallb isString
                       (default [] (asArray (PathsToReview args)))))
    eqn:Hp2; [eauto|].
  destruct (isDefined (BlockedOnUser args)
            && negb (isBoolean (BlockedOnUser args))) eqn:Hb; [eauto|].
  destruct (isDefined (ConfidenceScore args)
            && negb (isNumber (ConfidenceScore args))) eqn:Hc1; [eauto|].
  destruct (isDefined (ConfidenceScore args)
            && outsideUnitInterval (ConfidenceScore args)) eqn:Hc2; [eauto|].
  destruct (isDefined (ConfidenceJustification args)
            && negb (isString (ConfidenceJustification args))) eqn:Hj;
    [eauto|].
  destruct (isDefined (ShouldAutoProceed args)
            && negb (isBoolean (ShouldAutoProceed args))) eqn:Ha; [eauto|].
  destruct Hbad. unfold validNotifyArgs.
  rewrite <- nonEmptyString_spec, <- optionalPaths_spec,
    <- !optionalBoolean_spec, <- optionalScore_spec, <- optionalString_spec.
  done.
Qed.

Lemma validNotifyArgs_dec args : validNotifyArgs args ∨ ¬ validNotifyArgs args.
Proof.
  unfold validNotifyArgs.
  rewrite <- nonEmptyString_spec, <- optionalPaths_spec,
    <- !optionalBoolean_spec, <- optionalScore_spec, <- optionalString_spec.
  repeat match goal with
         | |- context [?b = false] =>
             lazymatch b with
             | false => fail
             | true => fail
             | _ => destruct b
             end
         end; intuition congruence.
Qed.

(** X22. [notify_user] accepts a call exactly when [Message] is a
    non-empty string and every other argument it is given has its type
    (paths an array of strings, the two flags booleans, the justification a
    string, the confidence score a number from 0 to 1); a call it rejects
    is answered with an error text and writes nothing. *)
Theorem notify_user_validates (timestamp : jsstring) (args : NotifyArgs)
    (dir : AgentDir) :
  ((handleNotifyUser timestamp args dir).2 = Accepted ↔ validNotifyArgs args)
  ∧ ((handleNotifyUser timestamp args dir).2 ≠ Accepted →
     (handleNotifyUser timestamp args dir).1 = dir).
Proof.
  destruct (validNotifyArgs_dec args) as [Hv | Hv].
  - rewrite (handleNotifyUser_valid _ _ _ Hv). simpl. tauto.
  - destruct (handleNotifyUser_invalid timestamp args dir Hv) as [text ->].
    simpl. split; [|done]. split; [done|tauto].
Qed.



(** ** Artifacts *)

Lemma brainOf_insert brainDir brain store :
  brainOf brainDir (<[brainDir := brain]> store) = brain.
Proof. unfold brainOf. by rewrite lookup_insert_eq. Qed.

Lemma brainOf_insert_ne brainDir brainDir' brain store :
  brainDir ≠ brainDir' →
  brainOf brainDir' (<[brainDir := brain]> store) = brainOf brainDir' store.
Proof. intros. unfold brainOf. by rewrite lookup_insert_ne. Qed.

Lemma metadataOf_loadManifest env store brainDir projectPath_ t :
  manifest_artifacts (loadManifest env (brainOf brainDir store) projectPath_)
    !! t
  = metadataOf store brainDir t.
Proof.
  unfold metadataOf, loadManifest.
  destruct (manifestFile (brainOf brainDir store)); simpl; [done|].
  apply lookup_empty.
Qed.

(** What a call does to one artifact of one brain directory. *)
Lemma create_effect env now args store brainDir t :
  let target := getProjectHash env (projectPathOr env (create_projectPath args)) in
  let existing := metadataOf store target (create_type args) in
  let store' := (handleCreateArtifact env now args store).1 in
  if bool_decide (is_Some existing)
     && negb (default false (create_overwrite args))
  then store' = store
       ∧ (handleCreateArtifact env now args store).2 = AlreadyExists
  else
    (handleCreateArtifact env now args store).2 ≠ AlreadyExists
    ∧ (brainDir ≠ target ∨ t ≠ create_type args →
       metadataOf store' brainDir t = metadataOf store brainDir t
       ∧ fileOf store' brainDir t = fileOf store brainDir t)
    ∧ fileOf store' target (create_type args) = Some (create_content args)
    ∧ ∃ metadata,
        metadataOf store' target (create_type args) = Some metadata
        ∧ meta_createdAt metadata = default now (meta_createdAt <$> existing)
        ∧ meta_versions metadata
          = default [] (meta_versions <$> existing)
            ++ [{| version_timestamp := now;
                   version_hash := getContentHash env (create_content args) |}].
Proof.
  intros target existing store'. unfold store', handleCreateArtifact.
  fold target. rewrite metadataOf_loadManifest. fold existing.
  destruct (bool_decide (is_Some existing)
            && negb (default false (create_overwrite args))); [done|].
  cbn [fst snd]. split; [by destruct (_ && _)|].
  unfold metadataOf, fileOf. split; [|split].
  - intros Hother. destruct (decide (brainDir = target)) as [-> | Hne].
    + destruct Hother as [? | Ht]; [done|].
      rewrite brainOf_insert. simpl.
      rewrite !lookup_insert_ne by done. split; [|done].
      unfold loadManifest.
      destruct (manifestFile (brainOf target store)); simpl; [done|].
      by rewrite lookup_empty.
    + by rewrite brainOf_insert_ne.
  - rewrite brainOf_insert. simpl. by rewrite lookup_insert_eq.
  - rewrite brainOf_insert. simpl. rewrite lookup_insert_eq. eauto.
Qed.

Lemma update_effect env now args store brainDir t :
  let target := getProjectHash env (projectPathOr env (update_projectPath args)) in
  let store' := (handleUpdateArtifact env now args store).1 in
  let reply := (handleUpdateArtifact env now args store).2 in
  match metadataOf store target (update_type args) with
  | None => store' = store ∧ reply = DoesNotExist
  | Some existing =>
      if bool_decide (version_hash <$> last (meta_versions existing)
                      = Some (getContentHash env (update_content args)))
      then store' = store ∧ reply = NoChanges
      else
        reply = Updated (S (length (meta_versions existing)))
                  (computeDiffSummary
                     (default [] (fileOf store target (update_type args)))
                     (update_content args))
        ∧ (brainDir ≠ target ∨ t ≠ update_type args →
           metadataOf store' brainDir t = metadataOf store brainDir t
           ∧ fileOf store' brainDir t = fileOf store brainDir t)
        ∧ fileOf store' target (update_type args) = Some (update_content args)
        ∧ ∃ metadata,
            metadataOf store' target (update_type args) = Some metadata
            ∧ meta_createdAt metadata = meta_createdAt existing
            ∧ meta_versions metadata
              = meta_versions existing
                ++ [{| version_timestamp := now;
                       version_hash :=
                         getContentHash env (update_content args) |}]
  end.
Proof.
  intros target store' reply. unfold store', reply, handleUpdateArtifact.
  fold target. rewrite metadataOf_loadManifest.
  destruct (metadataOf store target (update_type args)) as [existing|] eqn:Hex;
    [|done].
  destruct (bool_decide _); [done|]. cbn [fst snd].
  split; [by rewrite length_app, Nat.add_1_r|].
  unfold metadataOf, fileOf. split; [|split].
  - intros Hother. destruct (decide (brainDir = target)) as [-> | Hne].
    + destruct Hother as [? | Ht]; [done|].
      rewrite brainOf_insert. simpl.
      rewrite !lookup_insert_ne by done. split; [|done].
      unfold loadManifest.
      destruct (manifestFile (brainOf target store)); simpl; [done|].
      by rewrite lookup_empty.
    + by rewrite brainOf_insert_ne.
  - rewrite brainOf_insert. simpl. by rewrite lookup_insert_eq.
  - rewrite brainOf_insert. simpl. rewrite lookup_insert_eq. eauto.
Qed.


Lemma last_snoc_hash (versions : list ArtifactVersion) now hash :
  last (versions ++ [{| version_timestamp := now; version_hash := hash |}])
  = Some {| version_timestamp := now; version_hash := hash |}.
Proof. apply last_snoc. Qed.

Lemma create_consistent env now args store :
  brainConsistent env store →
  brainConsistent env (handleCreateArtifact env now args store).1.
Proof.
  intros Hst brainDir t metadata Hmeta.
  pose proof (create_effect env now args store brainDir t) as H.
  cbv zeta in H.
  destruct (bool_decide _ && negb _).
  { destruct H as [Heq _]. rewrite Heq in Hmeta |- *. by apply Hst. }
  destruct H as (_ & Hother & Hfile & (m & Hm & _ & Hversions)).
  destruct (decide (brainDir
                    = getProjectHash env
                        (projectPathOr env (create_projectPath args))))
    as [-> | Hne].
  - destruct (decide (t = create_type args)) as [-> | Ht].
    + rewrite Hm in Hmeta. injection Hmeta as <-.
      eexists _, _. split; [exact Hfile|]. rewrite Hversions.
      split; [apply last_snoc|done].
    + destruct (Hother (or_intror Ht)) as [Hm' Hf']. rewrite Hm' in Hmeta.
      rewrite Hf'. by apply Hst.
  - destruct (Hother (or_introl Hne)) as [Hm' Hf']. rewrite Hm' in Hmeta.
    rewrite Hf'. by apply Hst.
Qed.

Lemma update_consistent env now args store :
  brainConsistent env store →
  brainConsistent env (handleUpdateArtifact env now args store).1.
Proof.
  intros Hst brainDir t metadata Hmeta.
  pose proof (update_effect env now args store brainDir t) as H.
  cbv zeta in H.
  destruct (metadataOf store _ (update_type args)) as [existing|].
  2:{ destruct H as [Heq _]. rewrite Heq in Hmeta |- *. by apply Hst. }
  destruct (bool_decide _).
  { destruct H as [Heq _]. rewrite Heq in Hmeta |- *. by apply Hst. }
  destruct H as (_ & Hother & Hfile & (m & Hm & _ & Hversions)).
  destruct (decide (brainDir
                    = getProjectHash env
                        (projectPathOr env (update_projectPath args))))
    as [-> | Hne].
  - destruct (decide (t = update_type args)) as [-> | Ht].
    + rewrite Hm in Hmeta. injection Hmeta as <-.
      eexists _, _. split; [exact Hfile|]. rewrite Hversions.
      split; [apply last_snoc|done].
    + destruct (Hother (or_intror Ht)) as [Hm' Hf']. rewrite Hm' in Hmeta.
      rewrite Hf'. by apply Hst.
  - destruct (Hother (or_introl Hne)) as [Hm' Hf']. rewrite Hm' in Hmeta.
    rewrite Hf'. by apply Hst.
Qed.

(** X24. In every brain directory, each artifact of the manifest has its
    file, and the hash of its last version is the hash of what the file
    holds.  This holds of the empty store, and [create_artifact] and
    [update_artifact] keep it. *)
Theorem artifacts_match_last_version (env : ArtifactEnv) (now : jsstring)
    (createArgs : CreateArtifactArgs) (updateArgs : UpdateArtifactArgs)
    (store : gmap jsstring BrainDir) :
  brainConsistent env ∅
  ∧ (brainConsistent env store →
     brainConsistent env (handleCreateArtifact env now createArgs store).1
     ∧ brainConsistent env (handleUpdateArtifact env now updateArgs store).1).
Proof.
  split.
  - intros brainDir t metadata. unfold metadataOf, brainOf.
    by rewrite lookup_empty.
  - intros Hst. split; [by apply create_consistent|by apply update_consistent].
Qed.

(** X25. An update with the content that was just written is a no-op:
    after a [create_artifact] that wrote, or an [update_artifact] that
    wrote, [update_artifact] with the same type, project and content answers
    that nothing changed and leaves every file as it is. *)
Theorem update_with_same_content_is_noop (env : ArtifactEnv)
    (now now' : jsstring) (createArgs : CreateArtifactArgs)
    (updateArgs : UpdateArtifactArgs) (store : gmap jsstring BrainDir) :
  ((handleCreateArtifact env now createArgs store).2 ≠ AlreadyExists →
   handleUpdateArtifact env now'
     {| update_type := create_type createArgs;
        update_content := create_content createArgs;
        update_projectPath := create_projectPath createArgs |}
     (handleCreateArtifact env now createArgs store).1
   = ((handleCreateArtifact env now createArgs store).1, NoChanges))
  ∧ ((∃ version changes,
        (handleUpdateArtifact env now updateArgs store).2
        = Updated version changes) →
     handleUpdateArtifact env now' updateArgs
       (handleUpdateArtifact env now updateArgs store).1
     = ((handleUpdateArtifact env now updateArgs store).1, NoChanges)).
Proof.
  split.
  - intros Hwrote.
    pose proof (create_effect env now createArgs store [] ArtifactPlan) as H.
    cbv zeta in H. destruct (bool_decide _ && negb _); [by destruct H|].
    destruct H as (_ & _ & _ & (m & Hm & _ & Hversions)).
    set (store' := (handleCreateArtifact env now createArgs store).1) in *.
    pose proof (update_effect env now'
      {| update_type := create_type createArgs;
         update_content := create_content createArgs;
         update_projectPath := create_projectPath createArgs |}
      store' [] ArtifactPlan) as H.
    cbv zeta in H. simpl in H. rewrite Hm in H.
    rewrite Hversions, last_snoc in H. simpl in H.
    rewrite bool_decide_eq_true_2 in H by done.
    destruct H as [H1 H2]. by apply injective_projections.
  - intros (version & changes & Hreply).
    pose proof (update_effect env now updateArgs store [] ArtifactPlan) as H.
    cbv zeta in H.
    destruct (metadataOf store _ (update_type updateArgs)) as [existing|];
      [|destruct H as [_ H]; congruence].
    destruct (bool_decide _); [destruct H as [_ H]; congruence|].
    destruct H as (_ & _ & _ & (m & Hm & _ & Hversions)).
    set (store' := (handleUpdateArtifact env now updateArgs store).1) in *.
    pose proof (update_effect env now' updateArgs store' [] ArtifactPlan) as H.
    cbv zeta in H. rewrite Hm in H.
    rewrite Hversions, last_snoc in H. simpl in H.
    rewrite bool_decide_eq_true_2 in H by done.
    destruct H as [H1 H2]. by apply injective_projections.
Qed.

(** X26. Version histories only grow: whatever [create_artifact] or
    [update_artifact] call is made, an artifact that had metadata still has
    it afterwards, with the same [createdAt], and its old versions are the
    first of its versions. *)
Theorem artifact_history_only_grows (env : ArtifactEnv) (now : jsstring)
    (createArgs : CreateArtifactArgs) (updateArgs : UpdateArtifactArgs)
    (store : gmap jsstring BrainDir) (brainDir : jsstring)
    (t : ArtifactType) (metadata : ArtifactMetadata) :
  metadataOf store brainDir t = Some metadata →
  (∃ metadata',
     metadataOf (handleCreateArtifact env now createArgs store).1 brainDir t
     = Some metadata'
     ∧ meta_createdAt metadata' = meta_createdAt metadata
     ∧ meta_versions metadata `prefix_of` meta_versions metadata')
  ∧ (∃ metadata',
       metadataOf (handleUpdateArtifact env now updateArgs store).1 brainDir t
       = Some metadata'
       ∧ meta_createdAt metadata' = meta_createdAt metadata
       ∧ meta_versions metadata `prefix_of` meta_versions metadata').
Proof.
  intros Hmeta. split.
  - pose proof (create_effect env now createArgs store brainDir t) as H.
    cbv zeta in H. destruct (bool_decide _ && negb _).
    { destruct H as [-> _]. eauto. }
    destruct H as (_ & Hother & _ & (m & Hm & Hcreated & Hversions)).
    destruct (decide (brainDir
                      = getProjectHash env
                          (projectPathOr env (create_projectPath createArgs))))
      as [-> | Hne];
      [destruct (decide (t = create_type createArgs)) as [-> | Ht]|].
    + rewrite Hmeta in Hcreated, Hversions. simpl in *.
      exists m. split; [done|]. split; [done|].
      rewrite Hversions. by apply prefix_app_r.
    + destruct (Hother (or_intror Ht)) as [-> _]. eauto.
    + destruct (Hother (or_introl Hne)) as [-> _]. eauto.
  - pose proof (update_effect env now updateArgs store brainDir t) as H.
    cbv zeta in H.
    destruct (metadataOf store _ (update_type updateArgs)) as [existing|]
      eqn:Hex; [|destruct H as [-> _]; eauto].
    destruct (bool_decide _); [destruct H as [-> _]; eauto|].
    destruct H as (_ & Hother & _ & (m & Hm & Hcreated & Hversions)).
    destruct (decide (brainDir
                      = getProjectHash env
                          (projectPathOr env (update_projectPath updateArgs))))
      as [-> | Hne];
      [destruct (decide (t = update_type updateArgs)) as [-> | Ht]|].
    + rewrite Hmeta in Hex. injection Hex as <-.
      exists m. split; [done|]. split; [done|].
      rewrite Hversions. by apply prefix_app_r.
    + destruct (Hother (or_intror Ht)) as [-> _]. eauto.
    + destruct (Hother (or_introl Hne)) as [-> _]. eauto.
Qed.

(** X27. A [create_artifact] or [update_artifact] call touches one
    artifact of one brain directory: every other artifact keeps its
    metadata and its file; and a call that answers that the artifact exists
    already, does not exist, or has not changed writes nothing at all. *)
Theorem artifact_calls_touch_one_artifact (env : ArtifactEnv)
    (now : jsstring) (createArgs : CreateArtifactArgs)
    (updateArgs : UpdateArtifactArgs) (store : gmap jsstring BrainDir)
    (brainDir : jsstring) (t : ArtifactType) :
  let created := handleCreateArtifact env now createArgs store in
  let updated := handleUpdateArtifact env now updateArgs store in
  (brainDir ≠ getProjectHash env
                (projectPathOr env (create_projectPath createArgs))
   ∨ t ≠ create_type createArgs →
   metadataOf created.1 brainDir t = metadataOf store brainDir t
   ∧ fileOf created.1 brainDir t = fileOf store brainDir t)
  ∧ (brainDir ≠ getProjectHash env
                  (projectPathOr env (update_projectPath updateArgs))
     ∨ t ≠ update_type updateArgs →
     metadataOf updated.1 brainDir t = metadataOf store brainDir t
     ∧ fileOf updated.1 brainDir t = fileOf store brainDir t)
  ∧ (created.2 = AlreadyExists → created.1 = store)
  ∧ (updated.2 = DoesNotExist ∨ updated.2 = NoChanges → updated.1 = store).
Proof.
  intros created updated. unfold created, updated.
  pose proof (create_effect env now createArgs store brainDir t) as Hc.
  pose proof (update_effect env now updateArgs store brainDir t) as Hu.
  cbv zeta in Hc, Hu. split; [|split; [|split]].
  - clear Hu. destruct (bool_decide _ && negb _); [by destruct Hc as [-> _]|].
    by destruct Hc as (_ & Hother & _).
  - clear Hc. destruct (metadataOf store _ (update_type updateArgs));
      [|by destruct Hu as [-> _]].
    destruct (bool_decide _); [by destruct Hu as [-> _]|].
    by destruct Hu as (_ & Hother & _).
  - clear Hu. destruct (bool_decide _ && negb _); [by destruct Hc|].
    by destruct Hc as [? _].
  - clear Hc. destruct (metadataOf store _ (update_type updateArgs));
      [|by destruct Hu].
    destruct (bool_decide _); [by destruct Hu|].
    destruct Hu as [-> _]. by intros [[=]|[=]].
Qed.


Lemma filter_length_zero {A} (P : A → Prop) `{∀ x, Decision (P x)}
    (l : list A) :
  length (filter P l) = 0%nat ↔ ∀ x, x ∈ l → ¬ P x.
Proof.
  induction l as [|a l IH]; [by split; [intros _ x ?%elem_of_nil|]|].
  rewrite filter_cons. destruct (decide (P a)) as [Ha | Ha]; simpl.
  - split; [done|]. intros Hall. destruct (Hall a); [by left|done].
  - rewrite IH. split.
    + intros Hall x [-> | Hx]%elem_of_cons; auto.
    + intros Hall x Hx. apply Hall. by right.
Qed.

(** X28. The diff summary of an update is "No changes detected" exactly
    when the old and the new content have the same lines as sets: equal
    contents give it, and so do contents that differ only in the order of
    their lines or in how often a line is repeated. *)
Theorem diff_summary_compares_line_sets (oldContent newContent : jsstring) :
  computeDiffSummary oldContent newContent = js "No changes detected"
  ↔ ∀ line, line ∈ splitLines newContent ↔ line ∈ splitLines oldContent.
Proof.
  unfold computeDiffSummary.
  set (oldLines := splitLines oldContent).
  set (newLines := splitLines newContent).
  pose proof (filter_length_zero (λ line, line ∉ oldLines) newLines) as Ha.
  pose proof (filter_length_zero (λ line, line ∉ newLines) oldLines) as Hr.
  set (added := length (filter (λ line, line ∉ oldLines) newLines)) in *.
  set (removed := length (filter (λ line, line ∉ newLines) oldLines)) in *.
  assert ((∀ line, line ∈ newLines ↔ line ∈ oldLines)
          ↔ added = 0%nat ∧ removed = 0%nat) as ->.
  { rewrite Ha, Hr. split.
    - intros Hsame. split; intros x Hx Hnot; apply Hnot; by apply Hsame.
    - intros [H1 H2] line. split; intros Hin.
      + destruct (decide (line ∈ oldLines)) as [|Hno]; [done|].
        by destruct (H1 line Hin).
      + destruct (decide (line ∈ newLines)) as [|Hno]; [done|].
        by destruct (H2 line Hin). }
  destruct (Nat.ltb_spec 0 added) as [Hadd | Hadd];
    destruct (Nat.ltb_spec 0 removed) as [Hrem | Hrem]; simpl app.
  - split; [|lia]. intros Heq. simpl in Heq. discriminate Heq.
  - split; [|lia]. intros Heq. simpl in Heq. discriminate Heq.
  - split; [|lia]. intros Heq. simpl in Heq. discriminate Heq.
  - simpl. split; [lia|done].
Qed.


(** * Witnesses of the further properties *)

Lemma search_results_descend_witness :
  handleSearchKnowledge asciiLower exampleNow
    (exampleSearch "variables" None) exampleStore
  = Return [{| item := namingItem; score := 2 |};
            {| item := buildItem; score := 2 |}]
  ∧ descending [{| item := namingItem; score := 2 |};
                {| item := buildItem; score := 2 |}].
Proof.
  assert (handleSearchKnowledge asciiLower exampleNow
            (exampleSearch "variables" None) exampleStore
          = Return [{| item := namingItem; score := 2 |};
                    {| item := buildItem; score := 2 |}]) as Hrs
    by (vm_compute; reflexivity).
  split; [exact Hrs|].
  exact (search_results_descend asciiLower _ _ _ _ Hrs).
Defined.

Lemma search_limit_truncates_witness :
  QArith_base.Qle (QArith_base.inject_Z 0) (limitOrDefault oneAndAHalfSearch)
  ∧ rankedResults asciiLower exampleNow oneAndAHalfSearch exampleStore
    = Return [{| item := namingItem; score := 2 |};
              {| item := buildItem; score := 2 |}]
  ∧ handleSearchKnowledge asciiLower exampleNow oneAndAHalfSearch exampleStore
    = Return [{| item := namingItem; score := 2 |}].
Proof.
  assert (QArith_base.Qle (QArith_base.inject_Z 0)
            (limitOrDefault oneAndAHalfSearch)) as Hl
    by (unfold QArith_base.Qle; simpl; lia).
  assert (rankedResults asciiLower exampleNow oneAndAHalfSearch exampleStore
          = Return [{| item := namingItem; score := 2 |};
                    {| item := buildItem; score := 2 |}]) as Hr
    by (vm_compute; reflexivity).
  split; [exact Hl|]. split; [exact Hr|].
  destruct (search_limit_truncates asciiLower _ _ _ _ Hl Hr)
    as (_ & _ & Hsearch & _).
  exact Hsearch.
Defined.

Lemma search_returns_indexed_records_witness :
  (handleSearchKnowledge asciiLower exampleNow
     (exampleSearch "camelCase" None) exampleStore
   = Return [{| item := namingItem; score := 2 |}]
   ∧ {| item := namingItem; score := 2 |}
     ∈ [{| item := namingItem; score := 2 |}])
  ∧ ∃ i entry doc,
      (i, entry) ∈ items (loadIndex exampleNow exampleStore)
      ∧ files exampleStore !! i = Some doc
      ∧ wellTyped doc = true
      ∧ namingItem = asKnowledgeItem doc.
Proof.
  assert (handleSearchKnowledge asciiLower exampleNow
            (exampleSearch "camelCase" None) exampleStore
          = Return [{| item := namingItem; score := 2 |}]) as Hrs
    by (vm_compute; reflexivity).
  assert ({| item := namingItem; score := 2 |}
          ∈ [{| item := namingItem; score := 2 |}]) as Hin by (by left).
  split; [by split|].
  exact (search_returns_indexed_records asciiLower _ _ _ _ _ Hrs Hin).
Defined.

Lemma search_reads_index_keys_only_witness :
  (files exampleStore = files blankedStore
   ∧ (items (loadIndex exampleNow exampleStore)).*1
     = (items (loadIndex exampleNow blankedStore)).*1)
  ∧ handleSearchKnowledge asciiLower exampleNow
      (exampleSearch "variables" None) exampleStore
    = handleSearchKnowledge asciiLower exampleNow
        (exampleSearch "variables" None) blankedStore.
Proof.
  assert (files exampleStore = files blankedStore) as Hf by reflexivity.
  assert ((items (loadIndex exampleNow exampleStore)).*1
          = (items (loadIndex exampleNow blankedStore)).*1) as Hk
    by reflexivity.
  split; [by split|].
  exact (search_reads_index_keys_only asciiLower _ _ _ _ _ Hf Hk).
Defined.

Lemma save_then_search_finds_witness :
  handleSearchKnowledge asciiLower exampleNow
    (exampleSearch "camelCase" None)
    (handleSaveKnowledge exampleNow (js "id-1") namingArgs emptyStore).1
  = Return [{| item := namingItem; score := 2 |}]
  ∧ {| item := namingItem;
       score := calculateRelevanceScore asciiLower namingItem
                  (tokenize asciiLower (js "camelCase")) |}
    ∈ [{| item := namingItem; score := 2 |}].
Proof.
  assert (handleSearchKnowledge asciiLower exampleNow
            (exampleSearch "camelCase" None)
            (handleSaveKnowledge exampleNow (js "id-1") namingArgs
               emptyStore).1
          = Return [{| item := namingItem; score := 2 |}]) as Hrs
    by (vm_compute; reflexivity).
  split; [exact Hrs|].
  apply (save_then_search_finds asciiLower exampleNow (js "id-1") namingArgs
           emptyStore exampleNow (exampleSearch "camelCase" None)
           (js "camelCase")).
  - by eexists.
  - reflexivity.
  - reflexivity.
  - reflexivity.
  - vm_compute. reflexivity.
  - vm_compute. discriminate.
  - exact Hrs.
Defined.

Lemma save_leaves_other_ids_witness :
  js "id-1" ≠ js "id-2"
  ∧ files (handleSaveKnowledge exampleNow (js "id-2") buildArgs
             (handleSaveKnowledge exampleNow (js "id-1") namingArgs
                emptyStore).1).1 !! js "id-1"
    = Some (builtItem exampleNow (js "id-1") namingArgs).
Proof.
  assert (js "id-1" ≠ js "id-2") as Hne by (vm_compute; discriminate).
  split; [exact Hne|].
  rewrite (proj1 (save_leaves_other_ids exampleNow (js "id-2") buildArgs
                    (handleSaveKnowledge exampleNow (js "id-1") namingArgs
                       emptyStore).1 (js "id-1") Hne)).
  reflexivity.
Defined.

Lemma save_without_index_forgets_records_witness :
  (indexFile orphanedStore = None
   ∧ files orphanedStore !! js "id-1"
     = Some (builtItem exampleNow (js "id-1") namingArgs))
  ∧ ∀ r,
      r ∈ [{| item := asKnowledgeItem
                        (builtItem exampleNow (js "id-4") globalWithPathArgs);
              score := 2 |}] →
      item r
      = asKnowledgeItem (builtItem exampleNow (js "id-4") globalWithPathArgs).
Proof.
  assert (indexFile orphanedStore = None) as Hidx by reflexivity.
  assert (handleSearchKnowledge asciiLower exampleNow
            (exampleSearch "variables path" None)
            (handleSaveKnowledge exampleNow (js "id-4") globalWithPathArgs
               orphanedStore).1
          = Return [{| item := asKnowledgeItem
                                 (builtItem exampleNow (js "id-4")
                                    globalWithPathArgs);
                       score := 2 |}]) as Hrs
    by (vm_compute; reflexivity).
  split; [split; [exact Hidx | by vm_compute]|].
  intros r Hr.
  exact (proj1 (save_without_index_forgets_records asciiLower _ _ _ _ _ _ _ r
                  Hidx Hrs Hr)).
Defined.

Lemma score_adds_over_query_witness :
  [js "use"; js "naming"] ≡ₚ [js "naming"; js "use"]
  ∧ calculateRelevanceScore asciiLower namingItem [js "use"; js "naming"]
    = calculateRelevanceScore asciiLower namingItem [js "naming"; js "use"].
Proof.
  assert ([js "use"; js "naming"] ≡ₚ [js "naming"; js "use"]) as Hp
    by apply perm_swap.
  split; [exact Hp|].
  exact (proj2 (score_adds_over_query asciiLower namingItem _ _) Hp).
Defined.

Lemma tokens_are_words_witness :
  js "naming" ∈ tokenize asciiLower (js "Naming Conventions")
  ∧ js "naming" ≠ [].
Proof.
  assert (js "naming" ∈ tokenize asciiLower (js "Naming Conventions")) as H.
  { apply list_elem_of_In. vm_compute. left. reflexivity. }
  split; [exact H|].
  exact (proj1 (tokens_are_words asciiLower _ _ H)).
Defined.

Lemma tokenize_splits_at_separator_witness :
  (isWordChar 44 = false
   ∧ asciiLower (js "Foo" ++ 44%N :: js "Bar baz")
     = asciiLower (js "Foo") ++ 44%N :: asciiLower (js "Bar baz"))
  ∧ tokenize asciiLower (js "Foo" ++ 44%N :: js "Bar baz")
    = tokenize asciiLower (js "Foo") ++ tokenize asciiLower (js "Bar baz").
Proof.
  assert (isWordChar 44 = false) as Hc by reflexivity.
  assert (asciiLower (js "Foo" ++ 44%N :: js "Bar baz")
          = asciiLower (js "Foo") ++ 44%N :: asciiLower (js "Bar baz")) as Hl
    by reflexivity.
  split; [by split|].
  exact (tokenize_splits_at_separator asciiLower _ _ _ Hc Hl).
Defined.

Lemma tag_filter_edge_cases_witness :
  tags buildItem = []
  ∧ (filterByTags asciiLower buildItem (Some [js "style"]) = true
     ↔ Some [js "style"] = None ∨ Some [js "style"] = Some []).
Proof.
  assert (tags buildItem = []) as H by reflexivity.
  split; [exact H|].
  exact (proj1 (tag_filter_edge_cases asciiLower buildItem [] []) H
           (Some [js "style"])).
Defined.

Lemma planningArgs_valid : validTaskArgs planningArgs.
Proof.
  split; [|split]; eexists; (split; [reflexivity|]);
    [by vm_compute | | by vm_compute].
  apply list_elem_of_In. vm_compute. auto.
Qed.

Lemma executionArgs_valid : validTaskArgs executionArgs.
Proof.
  split; [|split]; eexists; (split; [reflexivity|]);
    [by vm_compute | | by vm_compute].
  apply list_elem_of_In. vm_compute. auto.
Qed.

Lemma mode_history_is_linked_witness :
  stateLinked emptyDir
  ∧ stateLinked (handleTaskBoundary exampleNow planningArgs emptyDir).1.
Proof.
  destruct (mode_history_is_linked exampleNow exampleNow planningArgs
              doneArgs None emptyDir) as (Hempty & _ & Hstep).
  split; [exact Hempty|]. exact (proj1 (Hstep Hempty)).
Defined.

Lemma task_boundary_keeps_task_start_witness :
  (∃ state task,
     stateFile planningDir = Some state ∧ state_currentTask state = Some task
     ∧ task_createdAt task = exampleNow)
  ∧ ∃ state' task',
      stateFile (handleTaskBoundary (js "later") executionArgs planningDir).1
      = Some state'
      ∧ state_currentTask state' = Some task'
      ∧ task_createdAt task' = exampleNow.
Proof.
  split; [by eexists _, _|].
  destruct (task_boundary_keeps_task_start (js "later") executionArgs
              planningDir _ _ eq_refl eq_refl)
    as (state' & task' & Hfile & Htask & Hcreated & _).
  by exists state', task'.
Defined.

Lemma agent_state_after_task_boundary_witness :
  (handleTaskBoundary exampleNow planningArgs emptyDir).2 = Accepted
  ∧ currentMode (handleGetAgentState (js "later") None planningDir)
    ≠ IDLE.
Proof.
  assert ((handleTaskBoundary exampleNow planningArgs emptyDir).2 = Accepted)
    as H by reflexivity.
  split; [exact H|].
  destruct (agent_state_after_task_boundary exampleNow (js "later")
              planningArgs None emptyDir H) as (_ & Hmode & _).
  exact Hmode.
Defined.

Lemma task_boundary_after_reset_witness :
  validTaskArgs executionArgs
  ∧ ∃ state task,
      stateFile
        (handleTaskBoundary (js "later") executionArgs
           (handleResetAgentState exampleNow exampleNow None planningDir)).1
      = Some state
      ∧ state_currentTask state = Some task
      ∧ task_createdAt task = js "later"
      ∧ task_modeHistory task
        = [{| change_from := None;
              change_to := asString (Mode executionArgs);
              change_timestamp := js "later" |}].
Proof.
  split; [exact executionArgs_valid|].
  exact (task_boundary_after_reset exampleNow exampleNow (js "later") None
           executionArgs planningDir executionArgs_valid).
Defined.


Lemma artifacts_match_last_version_witness :
  brainConsistent exampleEnv ∅
  ∧ brainConsistent exampleEnv
      (handleCreateArtifact exampleEnv exampleNow planCreate ∅).1.
Proof.
  destruct (artifacts_match_last_version exampleEnv exampleNow planCreate
              planUpdate ∅) as [Hempty Hstep].
  split; [exact Hempty|]. exact (proj1 (Hstep Hempty)).
Defined.

Lemma update_with_same_content_is_noop_witness :
  (handleCreateArtifact exampleEnv exampleNow planCreate ∅).2 ≠ AlreadyExists
  ∧ handleUpdateArtifact exampleEnv (js "later")
      {| update_type := create_type planCreate;
         update_content := create_content planCreate;
         update_projectPath := create_projectPath planCreate |}
      planStore
    = (planStore, NoChanges).
Proof.
  assert ((handleCreateArtifact exampleEnv exampleNow planCreate ∅).2
          ≠ AlreadyExists) as H by (vm_compute; discriminate).
  split; [exact H|].
  exact (proj1 (update_with_same_content_is_noop exampleEnv exampleNow
                  (js "later") planCreate planUpdate ∅) H).
Defined.

Lemma artifact_history_only_grows_witness :
  (∃ metadata,
     metadataOf planStore (getProjectHash exampleEnv (js "/repo")) ArtifactPlan
     = Some metadata
     ∧ length (meta_versions metadata) = 1%nat)
  ∧ ∃ metadata',
      metadataOf (handleUpdateArtifact exampleEnv (js "later") planUpdate
                    planStore).1
        (getProjectHash exampleEnv (js "/repo")) ArtifactPlan
      = Some metadata'
      ∧ meta_createdAt metadata' = exampleNow.
Proof.
  split; [by eexists|].
  destruct (artifact_history_only_grows exampleEnv (js "later") planCreate
              planUpdate planStore
              (getProjectHash exampleEnv (js "/repo")) ArtifactPlan _ eq_refl)
    as [_ (metadata' & Hm & Hc & _)].
  by exists metadata'.
Defined.

Lemma artifact_calls_touch_one_artifact_witness :
  ArtifactTask ≠ update_type planUpdate
  ∧ metadataOf (handleUpdateArtifact exampleEnv (js "later") planUpdate
                  planStore).1
      (getProjectHash exampleEnv (js "/repo")) ArtifactTask
    = None.
Proof.
  assert (ArtifactTask ≠ update_type planUpdate) as H by discriminate.
  split; [exact H|].
  destruct (artifact_calls_touch_one_artifact exampleEnv (js "later")
              planCreate planUpdate planStore
              (getProjectHash exampleEnv (js "/repo")) ArtifactTask)
    as (_ & Hu & _).
  rewrite (proj1 (Hu (or_intror H))). reflexivity.
Defined.

Lemma search_fails_on_untitled_match_witness :
  in_query noQuerySearch = None
  ∧ handleSearchKnowledge asciiLower exampleNow noQuerySearch exampleStore
    = Throw TypeError.
Proof.
  split; [reflexivity|].
  exact (proj1 (search_fails_on_untitled_match asciiLower exampleNow
                  noQuerySearch exampleStore) eq_refl).
Defined.

